(** * A regex-driven lexical analyzer (lexical.py), embedded and verified

    The Python module builds one master pattern out of an ordered table of
    named alternatives and drives it over the input with a cursor.  Here the
    table is a list of regular expressions over Unicode code points, the
    [re] engine is a backtracking matcher in continuation-passing style, and
    the generator [tokenize] is a function that returns the tokens it yields
    together with the way it ends (exhausted, or [SyntaxError]). *)

From Stdlib Require Import String Ascii.
From Stdlib Require Import List ZArith NArith Lia Bool.
Import ListNotations.

Set Implicit Arguments.

(** ** Text *)

(** A Python [str] is a sequence of code points. *)
Definition char := N.
Definition str := list char.

Definition of_string (s : string) : str :=
  map N_of_ascii (list_ascii_of_string s).

Definition str_eqb (a b : str) : bool :=
  if list_eq_dec N.eq_dec a b then true else false.

(** [code[i:j]] for [0 <= i <= j]. *)
Definition slice (code : str) (i j : Z) : str :=
  firstn (Z.to_nat (j - i)) (skipn (Z.to_nat i) code).

(** The classes [\d] and [\w] of a [str] pattern are Unicode classes.  Their
    restriction to code points below 128 is written out; the rest of the
    character database is an interface. *)
Class Unicode := {
  uni_decimal : char -> bool;   (* members of [\d] from 128 on *)
  uni_alnum : char -> bool      (* members of [\w] from 128 on *)
}.

(** ** Regular expressions, as [re] reads them *)

Inductive regex :=
| Eps                          (* the empty pattern *)
| Class (p : char -> bool)     (* one character: a literal, a set, [\d], [.] *)
| Cat (r1 r2 : regex)          (* r1 r2 *)
| Alt (r1 r2 : regex)          (* r1|r2, the left alternative first *)
| Star (r : regex)             (* r*, greedy *)
| LazyStar (r : regex).        (* r*?, shortest first *)

Definition Plus (r : regex) : regex := Cat r (Star r).      (* r+ *)
Definition Opt (r : regex) : regex := Alt r Eps.            (* r? *)
Definition Chr (c : char) : regex := Class (N.eqb c).
Definition OneOf (cs : string) : regex :=
  Class (fun c => existsb (N.eqb c) (of_string cs)).
Definition NoneOf (cs : string) : regex :=
  Class (fun c => negb (existsb (N.eqb c) (of_string cs))).
Fixpoint Lit (cs : str) : regex :=
  match cs with
  | [] => Eps
  | [c] => Chr c
  | c :: cs' => Cat (Chr c) (Lit cs')
  end.

Section Matcher.
Variable A : Type.
Variable k : str -> option A.

(** One more iteration of a greedy repetition is tried before leaving it.
    An iteration has to consume input, so the number of iterations is at
    most the length of the input, which is the fuel the loop starts with. *)
Fixpoint greedy_loop (body : str -> (str -> option A) -> option A)
         (n : nat) (s : str) : option A :=
  match n with
  | O => k s
  | S n' =>
      match body s (fun s' => if (length s' <? length s)%nat
                              then greedy_loop body n' s' else None) with
      | Some x => Some x
      | None => k s
      end
  end.

(** A lazy repetition leaves first and iterates only when the rest fails. *)
Fixpoint lazy_loop (body : str -> (str -> option A) -> option A)
         (n : nat) (s : str) : option A :=
  match k s with
  | Some x => Some x
  | None =>
      match n with
      | O => None
      | S n' => body s (fun s' => if (length s' <? length s)%nat
                                  then lazy_loop body n' s' else None)
      end
  end.
End Matcher.

(** [run r s k]: match [r] at the head of [s], hand the remaining input to
    the continuation [k], and backtrack into [r] when [k] fails.  The first
    success in the engine's order of preference is the result. *)
Fixpoint run (A : Type) (r : regex) (s : str) (k : str -> option A) : option A :=
  match r with
  | Eps => k s
  | Class p =>
      match s with
      | c :: s' => if p c then k s' else None
      | [] => None
      end
  | Cat r1 r2 => run r1 s (fun s' => run r2 s' k)
  | Alt r1 r2 =>
      match run r1 s k with
      | Some x => Some x
      | None => run r2 s k
      end
  | Star r1 => greedy_loop k (run (A:=A) r1) (length s) s
  | LazyStar r1 => lazy_loop k (run (A:=A) r1) (length s) s
  end.

(** The words a pattern can match, whatever the order of preference. *)
Inductive lang : regex -> str -> Prop :=
| lang_Eps : lang Eps []
| lang_Class p c : p c = true -> lang (Class p) [c]
| lang_Cat r1 r2 t1 t2 : lang r1 t1 -> lang r2 t2 -> lang (Cat r1 r2) (t1 ++ t2)
| lang_Alt_l r1 r2 t : lang r1 t -> lang (Alt r1 r2) t
| lang_Alt_r r1 r2 t : lang r2 t -> lang (Alt r1 r2) t
| lang_Star_nil r : lang (Star r) []
| lang_Star_cons r t1 t2 : lang r t1 -> lang (Star r) t2 -> lang (Star r) (t1 ++ t2)
| lang_Lazy_nil r : lang (LazyStar r) []
| lang_Lazy_cons r t1 t2 :
    lang r t1 -> lang (LazyStar r) t2 -> lang (LazyStar r) (t1 ++ t2).

(** The least number of characters a match of the pattern consumes. *)
Fixpoint minlen (r : regex) : nat :=
  match r with
  | Eps => 0
  | Class _ => 1
  | Cat r1 r2 => minlen r1 + minlen r2
  | Alt r1 r2 => Nat.min (minlen r1) (minlen r2)
  | Star _ | LazyStar _ => 0
  end.

(** ** The pattern table *)

Section Lexer.
Context {U : Unicode}.

Definition ascii_digit (c : char) : bool := (48 <=? c)%N && (c <=? 57)%N.
Definition ascii_letter (c : char) : bool :=
  ((65 <=? c)%N && (c <=? 90)%N) || ((97 <=? c)%N && (c <=? 122)%N).

(* \d *)
Definition digit (c : char) : bool :=
  if (c <? 128)%N then ascii_digit c else uni_decimal c.
(* \w *)
Definition word (c : char) : bool :=
  if (c <? 128)%N then ascii_letter c || ascii_digit c || (c =? 95)%N
  else uni_alnum c.
(* [A-Za-z_] *)
Definition id_start (c : char) : bool := ascii_letter c || (c =? 95)%N.
(* . without DOTALL *)
Definition dot (c : char) : bool := negb (c =? 10)%N.
(* [\s\S]: a class together with its complement, that is every character *)
Definition space_or_not (c : char) : bool := true.

Definition LF : string := String (ascii_of_nat 10) EmptyString.
Definition TAB : string := String (ascii_of_nat 9) EmptyString.
Definition CR : string := String (ascii_of_nat 13) EmptyString.
Definition QUOTE : string := String (ascii_of_nat 34) EmptyString.
Definition BACKSLASH : string := String (ascii_of_nat 92) EmptyString.

Definition NUMBER_re : regex :=
  Cat (Plus (Class digit)) (Opt (Cat (Chr 46%N) (Plus (Class digit)))).
Definition ID_re : regex :=
  Cat (Class id_start) (Star (Class word)).
Definition STRING_re : regex :=
  Cat (Chr 34%N)
    (Cat (Star (Alt (Cat (Chr 92%N) (Class dot)) (NoneOf (QUOTE ++ BACKSLASH))))
       (Chr 34%N)).
Definition COMMENT_re : regex :=
  Alt (Cat (Lit (of_string "//")) (Star (NoneOf LF)))
      (Cat (Lit (of_string "/*"))
         (Cat (LazyStar (Class space_or_not)) (Lit (of_string "*/")))).
Definition NEWLINE_re : regex := Chr 10%N.
Definition SKIP_re : regex := Plus (OneOf (" " ++ TAB ++ CR)).
Definition OP_re : regex :=
  Alt (Lit (of_string "=="))
 (Alt (Lit (of_string "!="))
 (Alt (Lit (of_string "<="))
 (Alt (Lit (of_string ">="))
 (Alt (Lit (of_string "++"))
 (Alt (Lit (of_string "--"))
 (Alt (Lit (of_string "->"))
      (OneOf "+-*/%=<>!"))))))).
Definition PUNCT_re : regex := OneOf "()[]{},;.".
Definition MISMATCH_re : regex := Class dot.

Definition TOKEN_SPECIFICATION : list (string * regex) :=
  [ ("NUMBER", NUMBER_re);
    ("ID", ID_re);
    ("STRING", STRING_re);
    ("COMMENT", COMMENT_re);
    ("NEWLINE", NEWLINE_re);
    ("SKIP", SKIP_re);
    ("OP", OP_re);
    ("PUNCT", PUNCT_re);
    ("MISMATCH", MISMATCH_re) ]%string.

(** The master pattern is the alternation of the named groups, in table
    order: the first group that matches at the cursor wins and gives
    [lastgroup].  The result is the group's name and the unread input. *)
Fixpoint alternation (spec : list (string * regex)) (s : str)
  : option (string * str) :=
  match spec with
  | [] => None
  | (name, r) :: spec' =>
      match run r s (fun s' => Some s') with
      | Some s' => Some (name, s')
      | None => alternation spec' s
      end
  end.

Record Match := { lastgroup : string; m_start : Z; m_end : Z }.

(* MASTER_PATTERN.match(code, pos); a negative pos is read as 0 *)
Definition MASTER_PATTERN_match (code : str) (pos : Z) : option Match :=
  match alternation TOKEN_SPECIFICATION (skipn (Z.to_nat pos) code) with
  | Some (name, rest) =>
      Some {| lastgroup := name; m_start := Z.max 0 pos;
              m_end := Z.of_nat (length code) - Z.of_nat (length rest) |}
  | None => None
  end.

(* mo.group(kind) *)
Definition group (code : str) (mo : Match) : str :=
  slice code (m_start mo) (m_end mo).


(** ** Tokens and the generator *)

Local Open Scope Z_scope.

Record Token := Tok { type : string; value : str; line : Z; column : Z }.

Definition KEYWORDS : list str :=
  map of_string
    [ "if"; "else"; "while"; "for"; "return"; "int"; "float"; "void";
      "break"; "continue"; "true"; "false" ]%string.

(* value in KEYWORDS *)
Definition in_KEYWORDS (v : str) : bool := existsb (str_eqb v) KEYWORDS.

(** [SyntaxError(f"Unexpected character {value!r} at line {line} col {col}")]:
    the three values the message is formatted from. *)
Record SyntaxError := Unexpected { character : str; err_line : Z; err_col : Z }.

(** How a generator run ends: it is exhausted, or it raises.  [OutOfFuel]
    is the model's own: the loop below is cut after [fuel] iterations. *)
Inductive ending :=
| StopIteration
| Raise (e : SyntaxError)
| OutOfFuel.

Definition yield (t : Token) (rest : list Token * ending) : list Token * ending :=
  (t :: fst rest, snd rest).

(** The [while mo is not None] loop, entered with the cursor
    [(line, line_start, pos)]. *)
Fixpoint tokenize_loop (fuel : nat) (code : str) (line line_start pos : Z)
  : list Token * ending :=
  match fuel with
  | O => ([], OutOfFuel)
  | S fuel' =>
      match MASTER_PATTERN_match code pos with
      | None => ([Tok "EOF" [] line (pos - line_start + 1)], StopIteration)
      | Some mo =>
          let kind := lastgroup mo in
          let value := group code mo in
          let col := m_start mo - line_start + 1 in
          let next := tokenize_loop fuel' code in
          if (kind =? "NEWLINE")%string then
            next (line + 1) (m_end mo) (m_end mo)
          else if (kind =? "SKIP")%string || (kind =? "COMMENT")%string then
            next line line_start (m_end mo)
          else if (kind =? "ID")%string then
            let tok_type :=
              if in_KEYWORDS value then "KEYWORD"%string else "IDENT"%string in
            yield (Tok tok_type value line col) (next line line_start (m_end mo))
          else if (kind =? "NUMBER")%string then
            yield (Tok "NUMBER" value line col) (next line line_start (m_end mo))
          else if (kind =? "STRING")%string then
            yield (Tok "STRING" value line col) (next line line_start (m_end mo))
          else if (kind =? "OP")%string then
            yield (Tok "OP" value line col) (next line line_start (m_end mo))
          else if (kind =? "PUNCT")%string then
            yield (Tok "PUNCT" value line col) (next line line_start (m_end mo))
          else if (kind =? "MISMATCH")%string then
            ([], Raise (Unexpected value line col))
          else
            next line line_start (m_end mo)
      end
  end.

(** Every iteration moves the cursor forward, so one iteration per
    character and one more to find the input exhausted are enough. *)
Definition tokenize (code : str) : list Token * ending :=
  tokenize_loop (S (length code)) code 1 0 0.

(** *** The loop, iteration by iteration

    The successive matches of the loop with the cursor each one is met
    with: what [tokenize_loop] goes through, tokens apart.  The iteration
    that raises is the last one. *)

Record iteration := Iter { it_line : Z; it_line_start : Z; it_match : Match }.

Definition it_kind (it : iteration) : string := lastgroup (it_match it).
Definition it_text (code : str) (it : iteration) : str := group code (it_match it).
Definition it_column (it : iteration) : Z :=
  m_start (it_match it) - it_line_start it + 1.

Fixpoint iterations_loop (fuel : nat) (code : str) (line line_start pos : Z)
  : list iteration :=
  match fuel with
  | O => []
  | S fuel' =>
      match MASTER_PATTERN_match code pos with
      | None => []
      | Some mo =>
          Iter line line_start mo ::
          (if (lastgroup mo =? "MISMATCH")%string then []
           else if (lastgroup mo =? "NEWLINE")%string then
             iterations_loop fuel' code (line + 1) (m_end mo) (m_end mo)
           else iterations_loop fuel' code line line_start (m_end mo))
      end
  end.

Definition iterations (code : str) : list iteration :=
  iterations_loop (S (length code)) code 1 0 0.

(** The branch of the loop body an iteration takes, as the tokens it yields. *)
Definition emit (code : str) (it : iteration) : list Token :=
  let kind := it_kind it in
  let value := it_text code it in
  if (kind =? "ID")%string then
    [Tok (if in_KEYWORDS value then "KEYWORD" else "IDENT")
         value (it_line it) (it_column it)]
  else if existsb (String.eqb kind) ["NUMBER"; "STRING"; "OP"; "PUNCT"]%string then
    [Tok kind value (it_line it) (it_column it)]
  else [].

Definition not_mismatch (it : iteration) : Prop := it_kind it <> "MISMATCH"%string.

(** The categories whose text the loop drops without a token. *)
Definition dropped (kind : string) : bool :=
  existsb (String.eqb kind) ["NEWLINE"; "SKIP"; "COMMENT"]%string.

Definition texts (toks : list Token) : str := concat (map value toks).

(** The text a run keeps: the matches that are not dropped, in order. *)
Definition meaningful (code : str) (its : list iteration) : str :=
  concat (map (it_text code)
              (filter (fun it => negb (dropped (it_kind it))) its)).

(** *** Positions, counted on the iterations *)

(** Where the cursor stands after [its], having started at [pos]. *)
Definition end_after (pos : Z) (its : list iteration) : Z :=
  last (map (fun it => m_end (it_match it)) its) pos.

Definition newlines (its : list iteration) : Z :=
  Z.of_nat (length (filter (fun it => (it_kind it =? "NEWLINE")%string) its)).

(** Where the line of the cursor starts after [its]: the end of the last
    NEWLINE match, [start] when there is none. *)
Fixpoint line_start_after (start : Z) (its : list iteration) : Z :=
  match its with
  | [] => start
  | it :: its' =>
      line_start_after
        (if (it_kind it =? "NEWLINE")%string then m_end (it_match it) else start)
        its'
  end.

(** *** String literals, as the specification words them *)

(** Whether the text after an opening double quote holds a closing double
    quote that no backslash escapes. *)
Fixpoint closing_quote (s : str) : bool :=
  match s with
  | [] => false
  | c :: t =>
      if (c =? 34)%N then true
      else if (c =? 92)%N then
        match t with
        | [] => false
        | _ :: t' => closing_quote t'
        end
      else closing_quote t
  end.

(** *** The round trip, as the specification words it

    The input with every space, tab, carriage return and line feed and all
    comment text deleted: [//] up to the end of the line, and [/*] up to
    the nearest [*/]. *)

Definition whitespace (c : char) : bool :=
  existsb (N.eqb c) [32; 9; 13; 10]%N.

Fixpoint block_closes (s : str) : bool :=
  match s with
  | [] => false
  | c :: t =>
      match t with
      | d :: _ => ((c =? 42)%N && (d =? 47)%N) || block_closes t
      | [] => false
      end
  end.

Inductive region := Plain | LineComment | BlockComment.

Fixpoint delete_from (r : region) (s : str) : str :=
  match s with
  | [] => []
  | c :: t =>
      match r with
      | LineComment =>
          if (c =? 10)%N then delete_from Plain t else delete_from LineComment t
      | BlockComment =>
          match t with
          | d :: t' =>
              if (c =? 42)%N && (d =? 47)%N then delete_from Plain t'
              else delete_from BlockComment t
          | [] => []
          end
      | Plain =>
          match t with
          | d :: t' =>
              if (c =? 47)%N && (d =? 47)%N then delete_from LineComment t'
              else if (c =? 47)%N && (d =? 42)%N && block_closes t'
                   then delete_from BlockComment t'
              else if whitespace c then delete_from Plain t
              else c :: delete_from Plain t
          | [] => if whitespace c then [] else [c]
          end
      end
  end.

Definition delete_whitespace_and_comments (s : str) : str := delete_from Plain s.

(** *** The round trip, string literals kept

    The same deletion, string literals left as they are.  The input is read
    from left to right.  Outside comments and literals a double quote opens
    a string literal, which runs to the first double quote after it that no
    backslash escapes; [//] opens a comment up to the end of the line, and
    [/*] one up to the nearest [*/] when there is one.  Comments are deleted,
    and so is every space, tab, carriage return and line feed outside the
    literals; the literals are kept whole, quotes included. *)

Inductive position :=
| Outside | InLineComment | InBlockComment | InLiteral | Escaped.

Fixpoint delete_outside_from (p : position) (s : str) : str :=
  match s with
  | [] => []
  | c :: t =>
      match p with
      | InLineComment =>
          if (c =? 10)%N then delete_outside_from Outside t
          else delete_outside_from InLineComment t
      | InBlockComment =>
          match t with
          | d :: t' =>
              if (c =? 42)%N && (d =? 47)%N then delete_outside_from Outside t'
              else delete_outside_from InBlockComment t
          | [] => []
          end
      | InLiteral =>
          c :: (if (c =? 34)%N then delete_outside_from Outside t
                else if (c =? 92)%N then delete_outside_from Escaped t
                else delete_outside_from InLiteral t)
      | Escaped => c :: delete_outside_from InLiteral t
      | Outside =>
          if (c =? 34)%N then c :: delete_outside_from InLiteral t
          else
            match t with
            | d :: t' =>
                if (c =? 47)%N && (d =? 47)%N
                then delete_outside_from InLineComment t'
                else if (c =? 47)%N && (d =? 42)%N && block_closes t'
                     then delete_outside_from InBlockComment t'
                else if whitespace c then delete_outside_from Outside t
                else c :: delete_outside_from Outside t
            | [] => if whitespace c then [] else [c]
            end
      end
  end.

Definition delete_outside_literals (s : str) : str :=
  delete_outside_from Outside s.

End Lexer.

(** ** Sample inputs *)

(** A character database with nothing beyond ASCII; the inputs below are
    ASCII and do not consult it. *)
Definition basic_latin : Unicode :=
  {| uni_decimal := fun _ => false; uni_alnum := fun _ => false |}.

(* a string literal holding a, space, b: quote a space b quote *)
Definition quoted_blank : str := [34; 97; 32; 98; 34]%N.
(* a block comment holding one line feed, then x *)
Definition comment_over_lines : str := [47; 42; 10; 42; 47; 120]%N.
(* x, line feed, two spaces, y *)
Definition two_lines : str := [120; 10; 32; 32; 121]%N.
(* quote, a, backslash, quote, b, quote *)
Definition escaped_quote : str := [34; 97; 92; 34; 98; 34]%N.
(* slash, slash, quote *)
Definition quote_in_comment : str := [47; 47; 34]%N.
(* x, space, quote, a, b *)
Definition unclosed_literal : str := [120; 32; 34; 97; 98]%N.

(** ** What the categories match, said without patterns *)

Section Direct.
Context {U : Unicode}.
Local Open Scope Z_scope.

(** What is left of [s] after its longest prefix of characters in [p]. *)
Fixpoint skip_while (p : char -> bool) (s : str) : str :=
  match s with
  | c :: t => if p c then skip_while p t else s
  | [] => []
  end.

(* [ \t\r] *)
Definition blank (c : char) : bool := existsb (N.eqb c) [32; 9; 13]%N.
(* [^\n] *)
Definition not_LF (c : char) : bool := negb (existsb (N.eqb c) [10]%N).

(** After the integer part of a number: a dot and digits are taken when the
    dot has a digit after it, nothing otherwise. *)
Definition fraction_rest (s : str) : str :=
  match s with
  | c :: d :: t => if (c =? 46)%N && digit d then skip_while digit t else s
  | _ => s
  end.

Definition number_rest (s : str) : str := fraction_rest (skip_while digit s).

(** After an opening double quote: the text after the first double quote
    that no backslash escapes.  A backslash takes the next character with it
    unless that character is a line feed or the input ends. *)
Fixpoint string_end (s : str) : option str :=
  match s with
  | [] => None
  | c :: t =>
      if (c =? 34)%N then Some t
      else if (c =? 92)%N then
        match t with
        | d :: t' => if dot d then string_end t' else None
        | [] => None
        end
      else string_end t
  end.

(** After the opening of a block comment: the text after the first star
    followed by a slash. *)
Fixpoint block_end (s : str) : option str :=
  match s with
  | [] => None
  | c :: t =>
      match t with
      | d :: t' => if (c =? 42)%N && (d =? 47)%N then Some t' else block_end t
      | [] => None
      end
  end.

(** Characters that never stand alone as an error: digits, letters and the
    underscore, blanks, and the operator and punctuation characters. *)
Definition plain_char (c : char) : bool :=
  digit c || id_start c || whitespace c ||
  existsb (N.eqb c) (of_string "+-*/%=<>!()[]{},;.").

(** Characters that read the same inside and outside a token: neither a
    double quote, nor a slash, nor a blank. *)
Definition ordinary (c : char) : bool :=
  negb ((c =? 34)%N || (c =? 47)%N || whitespace c).

(** Token positions in reading order. *)
Definition before (t1 t2 : Token) : Prop :=
  line t1 < line t2 \/ (line t1 = line t2 /\ column t1 < column t2).

Definition reads_before (it1 it2 : iteration) : Prop :=
  it_line it1 < it_line it2 \/
  (it_line it1 = it_line it2 /\ it_column it1 < it_column it2).

(** A run seen [d] lines further down. *)
Definition bump_token (d : Z) (t : Token) : Token :=
  Tok (type t) (value t) (line t + d) (column t).

Definition bump_ending (d : Z) (e : ending) : ending :=
  match e with
  | Raise (Unexpected c l col) => Raise (Unexpected c (l + d) col)
  | StopIteration => StopIteration
  | OutOfFuel => OutOfFuel
  end.

Definition bump (d : Z) (r : list Token * ending) : list Token * ending :=
  (map (bump_token d) (fst r), bump_ending d (snd r)).

(** A match seen [d] characters further on. *)
Definition shift_match (d : Z) (mo : Match) : Match :=
  {| lastgroup := lastgroup mo; m_start := m_start mo + d; m_end := m_end mo + d |}.

(** The offset at which the last line of [s] starts, [s] being read from
    offset [pos] with the current line starting at [ls]. *)
Fixpoint start_of_last_line (pos ls : Z) (s : str) : Z :=
  match s with
  | [] => ls
  | c :: t => start_of_last_line (pos + 1) (if (c =? 10)%N then pos + 1 else ls) t
  end.

Definition line_feeds (s : str) : Z := Z.of_nat (count_occ N.eq_dec s 10%N).

(** The texts a token of each kind can have. *)
Definition digits (t : str) : Prop :=
  t <> [] /\ Forall (fun c => digit c = true) t.

Definition token_shape (t : Token) : Prop :=
  let v := value t in
  (type t = "KEYWORD"%string /\ In v KEYWORDS) \/
  (type t = "IDENT"%string /\ ~ In v KEYWORDS /\
   exists c w, v = c :: w /\ id_start c = true /\
               Forall (fun d => word d = true) w) \/
  (type t = "NUMBER"%string /\
   exists i f, v = i ++ f /\ digits i /\
               (f = [] \/ exists g, f = 46%N :: g /\ digits g)) \/
  (type t = "STRING"%string /\
   exists body, v = 34%N :: body ++ [34%N] /\
                string_end (body ++ [34%N]) = Some []) \/
  (type t = "OP"%string /\
   (In v (map of_string ["=="; "!="; "<="; ">="; "++"; "--"; "->"]%string) \/
    exists c, v = [c] /\ In c (of_string "+-*/%=<>!"))) \/
  (type t = "PUNCT"%string /\ exists c, v = [c] /\ In c (of_string "()[]{},;.")) \/
  (type t = "EOF"%string /\ v = []).

End Direct.

(** * Properties *)

Unset Implicit Arguments.

(** ** The matcher *)

Lemma run_Star (A : Type) r s (k : str -> option A) :
  run (Star r) s k = greedy_loop k (run (A:=A) r) (length s) s.
Proof. reflexivity. Qed.

Lemma run_LazyStar (A : Type) r s (k : str -> option A) :
  run (LazyStar r) s k = lazy_loop k (run (A:=A) r) (length s) s.
Proof. reflexivity. Qed.

Section MatcherFacts.
Variable A : Type.
Implicit Types (k : str -> option A) (s t : str).

(** A result of a loop is a result of its continuation on what is left
    after some iterations of the body. *)
Lemma greedy_loop_sound r k :
  (forall s k x, run r s k = Some x ->
     exists t s', s = t ++ s' /\ lang r t /\ k s' = Some x) ->
  forall n s x, greedy_loop k (run (A:=A) r) n s = Some x ->
    exists t s', s = t ++ s' /\ lang (Star r) t /\ k s' = Some x.
Proof.
  intros Hbody n.
  induction n as [|n IH]; intros s x H; simpl in H.
  - exists [], s. repeat split; auto using lang_Star_nil.
  - destruct (run r s _) as [y|] eqn:E.
    + injection H as ->.
      apply Hbody in E as (t1 & s1 & -> & L1 & K1).
      destruct (length s1 <? length (t1 ++ s1))%nat; [|discriminate].
      apply IH in K1 as (t2 & s2 & -> & L2 & K2).
      exists (t1 ++ t2), s2.
      rewrite <- app_assoc. repeat split; auto using lang_Star_cons.
    + exists [], s. repeat split; auto using lang_Star_nil.
Qed.

Lemma lazy_loop_sound r k :
  (forall s k x, run r s k = Some x ->
     exists t s', s = t ++ s' /\ lang r t /\ k s' = Some x) ->
  forall n s x, lazy_loop k (run (A:=A) r) n s = Some x ->
    exists t s', s = t ++ s' /\ lang (LazyStar r) t /\ k s' = Some x.
Proof.
  intros Hbody n.
  induction n as [|n IH]; intros s x H; simpl in H.
  - destruct (k s) eqn:E; [|discriminate].
    exists [], s. repeat split; auto using lang_Lazy_nil. congruence.
  - destruct (k s) eqn:E.
    + exists [], s. repeat split; auto using lang_Lazy_nil. congruence.
    + apply Hbody in H as (t1 & s1 & -> & L1 & K1).
      destruct (length s1 <? length (t1 ++ s1))%nat; [|discriminate].
      apply IH in K1 as (t2 & s2 & -> & L2 & K2).
      exists (t1 ++ t2), s2.
      rewrite <- app_assoc. repeat split; auto using lang_Lazy_cons.
Qed.

(** Soundness: what [run] returns is what the continuation returned on
    the input that a word of the pattern's language was taken off. *)
Theorem run_sound r : forall s k x,
  run r s k = Some x ->
  exists t s', s = t ++ s' /\ lang r t /\ k s' = Some x.
Proof.
  induction r as [|p|r1 IH1 r2 IH2|r1 IH1 r2 IH2|r IH|r IH]; intros s k x H.
  - exists [], s. repeat split; auto using lang_Eps.
  - simpl in H. destruct s as [|c s]; [discriminate|].
    destruct (p c) eqn:E; [|discriminate].
    exists [c], s. repeat split; auto using lang_Class.
  - simpl in H.
    apply IH1 in H as (t1 & s1 & -> & L1 & K1).
    apply IH2 in K1 as (t2 & s2 & -> & L2 & K2).
    exists (t1 ++ t2), s2.
    rewrite <- app_assoc. repeat split; auto using lang_Cat.
  - simpl in H. destruct (run r1 s k) as [y|] eqn:E.
    + injection H as ->. apply IH1 in E as (t & s' & -> & L & K).
      exists t, s'. repeat split; auto using lang_Alt_l.
    + apply IH2 in H as (t & s' & -> & L & K).
      exists t, s'. repeat split; auto using lang_Alt_r.
  - rewrite run_Star in H. eapply greedy_loop_sound; eauto.
  - rewrite run_LazyStar in H. eapply lazy_loop_sound; eauto.
Qed.

(** [run] uses its continuation only through the values it returns. *)
Lemma run_ext r : forall s k1 k2,
  (forall s', k1 s' = k2 s') -> run r s k1 = run r s k2.
Proof.
  induction r as [|p|r1 IH1 r2 IH2|r1 IH1 r2 IH2|r IH|r IH]; intros s k1 k2 E.
  - apply E.
  - simpl. destruct s; auto. destruct (p c); auto.
  - simpl. apply IH1. intros s'. apply IH2, E.
  - simpl. rewrite (IH1 s k1 k2 E), (IH2 s k1 k2 E). reflexivity.
  - rewrite !run_Star. generalize (length s) as n. intros n. revert s.
    induction n as [|n IHn]; intros s; simpl; [apply E|].
    rewrite (IH s _ (fun s' => if (length s' <? length s)%nat
                               then greedy_loop k2 (run (A:=A) r) n s' else None)).
    + rewrite E. reflexivity.
    + intros s'. destruct (length s' <? length s)%nat; auto.
  - rewrite !run_LazyStar. generalize (length s) as n. intros n. revert s.
    induction n as [|n IHn]; intros s; simpl; rewrite E; [reflexivity|].
    destruct (k2 s); auto.
    apply IH. intros s'. destruct (length s' <? length s)%nat; auto.
Qed.

(** The fuel of a greedy loop is never what stops it: any amount from the
    length of the input on gives the same result. *)
Lemma greedy_loop_fuel r k : forall n m s,
  (length s <= n)%nat -> (length s <= m)%nat ->
  greedy_loop k (run (A:=A) r) n s = greedy_loop k (run (A:=A) r) m s.
Proof.
  assert (Hnil : forall n, greedy_loop k (run (A:=A) r) n [] = k []).
  { intros [|n]; simpl; auto.
    destruct (run r [] _) eqn:E; auto.
    apply run_sound in E as (t & s' & E & _ & K).
    destruct (length s' <? 0)%nat eqn:L; [|discriminate].
    apply Nat.ltb_lt in L. lia. }
  induction n as [|n IH]; intros m s Hn Hm.
  - destruct s; [|simpl in Hn; lia]. rewrite !Hnil. reflexivity.
  - destruct m as [|m].
    + destruct s; [|simpl in Hm; lia]. rewrite !Hnil. reflexivity.
    + simpl.
      rewrite (run_ext r s _ (fun s' => if (length s' <? length s)%nat
                               then greedy_loop k (run (A:=A) r) m s' else None)).
      * reflexivity.
      * intros s'. destruct (length s' <? length s)%nat eqn:L; auto.
        apply Nat.ltb_lt in L. apply IH; lia.
Qed.

Lemma lazy_loop_fuel r k : forall n m s,
  (length s <= n)%nat -> (length s <= m)%nat ->
  lazy_loop k (run (A:=A) r) n s = lazy_loop k (run (A:=A) r) m s.
Proof.
  assert (Hnil : forall n, lazy_loop k (run (A:=A) r) n [] = k []).
  { intros [|n]; simpl; destruct (k []) eqn:K; auto.
    destruct (run r [] _) eqn:E; auto.
    apply run_sound in E as (t & s' & E & _ & K').
    destruct (length s' <? 0)%nat eqn:L; [|discriminate].
    apply Nat.ltb_lt in L. lia. }
  induction n as [|n IH]; intros m s Hn Hm.
  - destruct s; [|simpl in Hn; lia]. rewrite !Hnil. reflexivity.
  - destruct m as [|m].
    + destruct s; [|simpl in Hm; lia]. rewrite !Hnil. reflexivity.
    + simpl. destruct (k s); auto.
      apply run_ext.
      intros s'. destruct (length s' <? length s)%nat eqn:L; auto.
      apply Nat.ltb_lt in L. apply IH; lia.
Qed.

(** A word of the language is at least [minlen] long. *)
Lemma lang_minlen r t : lang r t -> (minlen r <= length t)%nat.
Proof.
  induction 1; simpl; rewrite ?length_app; lia.
Qed.
End MatcherFacts.

(** ** The master pattern *)

Section MasterPattern.
Context {U : Unicode}.
Local Open Scope Z_scope.

Lemma alternation_sound spec s name rest :
  alternation spec s = Some (name, rest) ->
  exists r, In (name, r) spec /\ run r s (fun s' => Some s') = Some rest.
Proof.
  induction spec as [|[n r] spec IH]; simpl; [discriminate|].
  destruct (run r s _) as [s'|] eqn:E; intros H.
  - injection H as -> ->. eauto.
  - apply IH in H as (r' & I & R). eauto.
Qed.

Lemma alternation_first spec s name r rest :
  In (name, r) spec -> run r s (fun s' => Some s') = Some rest ->
  alternation spec s <> None.
Proof.
  induction spec as [|[n r'] spec IH]; simpl; [tauto|].
  intros [E|I] R.
  - injection E as -> ->. rewrite R. discriminate.
  - destruct (run r' s _); [discriminate|]. eauto.
Qed.

(** No category of the table matches the empty word. *)
Lemma TOKEN_SPECIFICATION_minlen :
  Forall (fun e => (1 <= minlen (snd e))%nat) TOKEN_SPECIFICATION.
Proof. repeat constructor. Qed.

Lemma alternation_TOKEN_SPECIFICATION s name rest :
  alternation TOKEN_SPECIFICATION s = Some (name, rest) ->
  exists r t, In (name, r) TOKEN_SPECIFICATION /\ lang r t /\
              t <> [] /\ s = t ++ rest.
Proof.
  intros H. apply alternation_sound in H as (r & I & R).
  apply run_sound in R as (t & s' & -> & L & K). injection K as ->.
  exists r, t. repeat split; auto.
  pose proof TOKEN_SPECIFICATION_minlen as M.
  rewrite Forall_forall in M. specialize (M _ I). simpl in M.
  apply lang_minlen in L. destruct t; [simpl in L; lia|discriminate].
Qed.

(** At the end of the input nothing matches; anywhere else NEWLINE or, at
    the latest, MISMATCH does. *)
Lemma alternation_nil : alternation TOKEN_SPECIFICATION [] = None.
Proof. reflexivity. Qed.

Lemma alternation_cons c s : alternation TOKEN_SPECIFICATION (c :: s) <> None.
Proof.
  destruct (N.eqb c 10) eqn:E.
  - apply alternation_first with (name := "NEWLINE"%string) (r := NEWLINE_re) (rest := s).
    + simpl; tauto.
    + apply N.eqb_eq in E. subst c. reflexivity.
  - apply alternation_first with (name := "MISMATCH"%string) (r := MISMATCH_re) (rest := s).
    + simpl; tauto.
    + simpl. unfold dot. rewrite E. reflexivity.
Qed.

Lemma skipn_split (code : str) (pos : Z) t rest :
  0 <= pos <= Z.of_nat (length code) ->
  skipn (Z.to_nat pos) code = t ++ rest ->
  let e := Z.of_nat (length code) - Z.of_nat (length rest) in
  e = pos + Z.of_nat (length t) /\
  slice code pos e = t /\
  skipn (Z.to_nat e) code = rest.
Proof.
  intros Hpos E e.
  assert (L : length (skipn (Z.to_nat pos) code) = (length t + length rest)%nat)
    by (rewrite E; apply length_app).
  rewrite length_skipn in L.
  assert (He : e = pos + Z.of_nat (length t)) by (unfold e; lia).
  split; [exact He|]. split.
  - unfold slice. rewrite E, He.
    replace (Z.to_nat (pos + Z.of_nat (length t) - pos)) with (length t) by lia.
    rewrite firstn_app, Nat.sub_diag, firstn_all. simpl. apply app_nil_r.
  - rewrite He.
    replace (Z.to_nat (pos + Z.of_nat (length t)))
      with (length t + Z.to_nat pos)%nat by lia.
    rewrite <- skipn_skipn, E, skipn_app, skipn_all, Nat.sub_diag.
    reflexivity.
Qed.

(** What a match at the cursor is: a non-empty word of its category's
    language, read off the input from [pos] on. *)
Lemma MASTER_PATTERN_match_Some code pos mo :
  0 <= pos <= Z.of_nat (length code) ->
  MASTER_PATTERN_match code pos = Some mo ->
  exists r,
    In (lastgroup mo, r) TOKEN_SPECIFICATION /\
    lang r (group code mo) /\
    group code mo <> [] /\
    m_start mo = pos /\
    m_end mo = pos + Z.of_nat (length (group code mo)) /\
    skipn (Z.to_nat pos) code =
      group code mo ++ skipn (Z.to_nat (m_end mo)) code.
Proof.
  intros Hpos H. unfold MASTER_PATTERN_match in H.
  destruct (alternation _ _) as [[name rest]|] eqn:E; [|discriminate].
  injection H as <-. unfold group. simpl. rewrite Z.max_r by lia.
  apply alternation_TOKEN_SPECIFICATION in E as (r & t & I & L & Ne & E).
  destruct (skipn_split code pos t rest Hpos E) as (He & Hs & Hr).
  rewrite Hs, Hr. exists r. repeat split; auto.
Qed.

Lemma MASTER_PATTERN_match_None code pos :
  0 <= pos <= Z.of_nat (length code) ->
  (MASTER_PATTERN_match code pos = None <-> pos = Z.of_nat (length code)).
Proof.
  intros Hpos. unfold MASTER_PATTERN_match. split.
  - destruct (skipn (Z.to_nat pos) code) as [|c s] eqn:E.
    + intros _. apply skipn_all_iff in E. lia.
    + pose proof (alternation_cons c s) as Ne.
      destruct (alternation _ (c :: s)) as [[? ?]|]; [discriminate|tauto].
  - intros ->. rewrite Nat2Z.id, skipn_all. reflexivity.
Qed.

Lemma MASTER_PATTERN_match_bounds code pos mo :
  0 <= pos <= Z.of_nat (length code) ->
  MASTER_PATTERN_match code pos = Some mo ->
  pos < m_end mo <= Z.of_nat (length code).
Proof.
  intros Hpos H.
  destruct (MASTER_PATTERN_match_Some code pos mo Hpos H) as (r & _ & _ & Ne & _ & He & Hs).
  assert (L : length (skipn (Z.to_nat pos) code) =
              (length (group code mo) + length (skipn (Z.to_nat (m_end mo)) code))%nat)
    by (rewrite Hs at 1; apply length_app).
  rewrite length_skipn in L.
  destruct (group code mo); [congruence|]. simpl in *. lia.
Qed.
(** *** An opening quote that nothing closes *)

Lemma run_Chr (A : Type) c s (k : str -> option A) :
  run (Chr c) s k =
  match s with
  | [] => None
  | d :: s' => if (d =? c)%N then k s' else None
  end.
Proof.
  destruct s as [|d s']; [reflexivity|]. simpl. rewrite N.eqb_sym. reflexivity.
Qed.

Lemma run_Alt (A : Type) r1 r2 s (k : str -> option A) :
  run (Alt r1 r2) s k =
  match run r1 s k with Some x => Some x | None => run r2 s k end.
Proof. reflexivity. Qed.

Lemma run_Cat (A : Type) r1 r2 s (k : str -> option A) :
  run (Cat r1 r2) s k = run r1 s (fun s' => run r2 s' k).
Proof. reflexivity. Qed.

(** One step inside a string literal, an escape or a plain character, goes
    on to text that still has no closing quote. *)
Lemma string_step_unclosed (cont : str -> option str) s :
  (forall s', closing_quote s' = false -> cont s' = None) ->
  closing_quote s = false ->
  run (Alt (Cat (Chr 92%N) (Class dot)) (NoneOf (QUOTE ++ BACKSLASH))) s cont = None.
Proof.
  intros Hc H. destruct s as [|c t]; [reflexivity|].
  cbn [closing_quote] in H.
  destruct (c =? 34)%N eqn:E1; [discriminate|].
  rewrite run_Alt, run_Cat, run_Chr.
  change (run (NoneOf (QUOTE ++ BACKSLASH)) (c :: t) cont)
    with (if negb ((c =? 34)%N || ((c =? 92)%N || false)) then cont t else None).
  rewrite E1. destruct (c =? 92)%N eqn:E2; cbn [orb negb].
  - destruct t as [|d t']; [reflexivity|]. cbn [run].
    destruct (dot d); [|reflexivity]. rewrite (Hc t' H). reflexivity.
  - rewrite (Hc t H). reflexivity.
Qed.

Lemma string_loop_unclosed : forall n s,
  closing_quote s = false ->
  greedy_loop (fun s' => run (Chr 34%N) s' (fun s'' => Some s''))
    (run (A:=str) (Alt (Cat (Chr 92%N) (Class dot)) (NoneOf (QUOTE ++ BACKSLASH))))
    n s = None.
Proof.
  assert (K : forall s, closing_quote s = false ->
                        run (Chr 34%N) s (fun s'' => Some s'') = None).
  { intros [|c t] H; rewrite run_Chr; [reflexivity|].
    cbn [closing_quote] in H. destruct (c =? 34)%N; [discriminate|reflexivity]. }
  induction n as [|n IH]; intros s H; cbn [greedy_loop]; [apply K, H|].
  rewrite (K s H), string_step_unclosed; auto.
  intros s' H'. destruct (length s' <? length s)%nat; auto.
Qed.

Lemma STRING_unclosed rest :
  closing_quote rest = false ->
  run STRING_re (34%N :: rest) (fun s' => Some s') = None.
Proof.
  intros H.
  change (run STRING_re (34%N :: rest) (fun s' => Some s'))
    with (greedy_loop (fun s' => run (Chr 34%N) s' (fun s'' => Some s''))
            (run (A:=str) (Alt (Cat (Chr 92%N) (Class dot))
                               (NoneOf (QUOTE ++ BACKSLASH))))
            (length rest) rest).
  apply string_loop_unclosed, H.
Qed.

(** At an opening quote that nothing closes the master pattern has only
    MISMATCH to match, and it matches the quote. *)
Lemma alternation_unclosed rest :
  closing_quote rest = false ->
  alternation TOKEN_SPECIFICATION (34%N :: rest) = Some ("MISMATCH"%string, rest).
Proof.
  intros H. unfold TOKEN_SPECIFICATION. cbn [alternation].
  rewrite (STRING_unclosed rest H). reflexivity.
Qed.

End MasterPattern.

(** ** The loop *)

Section Loop.
Context {U : Unicode}.
Local Open Scope Z_scope.

(** One iteration: the branch taken is [emit], the cursor moves to the end
    of the match, and a NEWLINE match starts a line there. *)
Lemma tokenize_loop_step fuel code l ls p :
  tokenize_loop (S fuel) code l ls p =
  match MASTER_PATTERN_match code p with
  | None => ([Tok "EOF" [] l (p - ls + 1)], StopIteration)
  | Some mo =>
      let it := Iter l ls mo in
      if (lastgroup mo =? "MISMATCH")%string then
        ([], Raise (Unexpected (it_text code it) l (it_column it)))
      else
        let next :=
          if (lastgroup mo =? "NEWLINE")%string
          then tokenize_loop fuel code (l + 1) (m_end mo) (m_end mo)
          else tokenize_loop fuel code l ls (m_end mo) in
        (emit code it ++ fst next, snd next)
  end.
Proof.
  simpl. destruct (MASTER_PATTERN_match code p) as [[kind st en]|]; [|reflexivity].
  unfold emit, it_kind, it_text, it_column, yield. simpl.
  destruct (String.eqb_spec kind "NEWLINE"%string) as [->|N1]; simpl.
  { destruct (tokenize_loop fuel code _ _ _); reflexivity. }
  destruct (String.eqb_spec kind "SKIP"%string) as [->|N2]; simpl.
  { destruct (tokenize_loop fuel code _ _ _); reflexivity. }
  destruct (String.eqb_spec kind "COMMENT"%string) as [->|N3]; simpl.
  { destruct (tokenize_loop fuel code _ _ _); reflexivity. }
  destruct (String.eqb_spec kind "ID"%string) as [->|N4]; simpl; [reflexivity|].
  destruct (String.eqb_spec kind "NUMBER"%string) as [->|N5]; simpl; [reflexivity|].
  destruct (String.eqb_spec kind "STRING"%string) as [->|N6]; simpl; [reflexivity|].
  destruct (String.eqb_spec kind "OP"%string) as [->|N7]; simpl; [reflexivity|].
  destruct (String.eqb_spec kind "PUNCT"%string) as [->|N8]; simpl; [reflexivity|].
  destruct (String.eqb_spec kind "MISMATCH"%string) as [->|N9]; simpl; [reflexivity|].
  destruct (tokenize_loop fuel code _ _ _); reflexivity.
Qed.

Lemma iterations_loop_step fuel code l ls p :
  iterations_loop (S fuel) code l ls p =
  match MASTER_PATTERN_match code p with
  | None => []
  | Some mo =>
      Iter l ls mo ::
      (if (lastgroup mo =? "MISMATCH")%string then []
       else if (lastgroup mo =? "NEWLINE")%string then
         iterations_loop fuel code (l + 1) (m_end mo) (m_end mo)
       else iterations_loop fuel code l ls (m_end mo))
  end.
Proof. reflexivity. Qed.

Lemma newlines_cons it its :
  newlines (it :: its) =
  (if (it_kind it =? "NEWLINE")%string then 1 else 0) + newlines its.
Proof.
  unfold newlines. cbn [filter].
  destruct (it_kind it =? "NEWLINE")%string; cbn [length]; lia.
Qed.

Lemma last_cons (l : list Z) : forall a d, last (a :: l) d = last l a.
Proof.
  induction l as [|b l IH]; intros a d; [reflexivity|].
  change (last (a :: b :: l) d) with (last (b :: l) d).
  rewrite !IH. reflexivity.
Qed.

Lemma end_after_cons p it its :
  end_after p (it :: its) = end_after (m_end (it_match it)) its.
Proof. unfold end_after. simpl map. apply last_cons. Qed.

(** The tokens of a run are the tokens its iterations yield, in order,
    followed by EOF at the final cursor when the input is exhausted; a run
    raises at its first MISMATCH match, which is its last iteration. *)
Lemma tokenize_loop_trace fuel code : forall l ls p,
  let r := tokenize_loop fuel code l ls p in
  let its := iterations_loop fuel code l ls p in
  match snd r with
  | StopIteration =>
      fst r = flat_map (emit code) its ++
              [Tok "EOF" [] (l + newlines its)
                   (end_after p its - line_start_after ls its + 1)] /\
      Forall not_mismatch its
  | Raise e =>
      exists pre it,
        its = pre ++ [it] /\ Forall not_mismatch pre /\
        it_kind it = "MISMATCH"%string /\
        e = Unexpected (it_text code it) (it_line it) (it_column it) /\
        fst r = flat_map (emit code) pre
  | OutOfFuel => fst r = flat_map (emit code) its /\ Forall not_mismatch its
  end.
Proof.
  induction fuel as [|fuel IH]; intros l ls p; [simpl; auto|].
  cbv zeta. rewrite tokenize_loop_step, iterations_loop_step.
  destruct (MASTER_PATTERN_match code p) as [mo|].
  2:{ simpl. unfold newlines, end_after. simpl. rewrite Z.add_0_r. auto. }
  cbv zeta.
  destruct (lastgroup mo =? "MISMATCH")%string eqn:M.
  { simpl. exists [], (Iter l ls mo). apply String.eqb_eq in M. auto. }
  assert (NM : not_mismatch (Iter l ls mo)) by (apply String.eqb_neq, M).
  set (it := Iter l ls mo) in *.
  assert (K : it_kind it = lastgroup mo) by reflexivity.
  assert (E : m_end (it_match it) = m_end mo) by reflexivity.
  destruct (lastgroup mo =? "NEWLINE")%string eqn:NL;
    [specialize (IH (l + 1) (m_end mo) (m_end mo))
    |specialize (IH l ls (m_end mo))];
    cbv zeta in IH;
    destruct (tokenize_loop fuel code _ _ _) as [toks e];
    simpl fst in *; simpl snd in *;
    (destruct e as [|e|];
     [ destruct IH as (-> & F); split; [|constructor; assumption];
       rewrite newlines_cons, end_after_cons, K, NL, E; simpl line_start_after;
       rewrite K, NL; simpl flat_map; rewrite <- app_assoc;
       do 3 f_equal; f_equal; lia
     | destruct IH as (pre & it' & -> & F & Km & -> & ->);
       exists (it :: pre), it'; repeat split; auto
     | destruct IH as (-> & F); split; [reflexivity|constructor; assumption] ]).
Qed.

(** Every iteration is a match of the master pattern at a position of the
    input, and the next one starts where it ends. *)
Lemma iterations_loop_matches fuel code : forall l ls p,
  0 <= p <= Z.of_nat (length code) ->
  Forall (fun it =>
            0 <= m_start (it_match it) <= Z.of_nat (length code) /\
            MASTER_PATTERN_match code (m_start (it_match it)) = Some (it_match it))
         (iterations_loop fuel code l ls p).
Proof.
  induction fuel as [|fuel IH]; intros l ls p Hp; [constructor|].
  rewrite iterations_loop_step.
  destruct (MASTER_PATTERN_match code p) as [mo|] eqn:M; [|constructor].
  pose proof (MASTER_PATTERN_match_bounds code p mo Hp M) as B.
  destruct (MASTER_PATTERN_match_Some code p mo Hp M) as (_ & _ & _ & _ & S & _).
  constructor.
  - simpl. rewrite S. auto.
  - destruct (lastgroup mo =? "MISMATCH")%string; [constructor|].
    destruct (lastgroup mo =? "NEWLINE")%string; apply IH; lia.
Qed.

Lemma iterations_loop_concat fuel code : forall l ls p,
  0 <= p <= Z.of_nat (length code) ->
  let its := iterations_loop fuel code l ls p in
  p <= end_after p its <= Z.of_nat (length code) /\
  concat (map (it_text code) its) ++ skipn (Z.to_nat (end_after p its)) code =
  skipn (Z.to_nat p) code.
Proof.
  induction fuel as [|fuel IH]; intros l ls p Hp; cbv zeta.
  { simpl. unfold end_after. simpl. split; [lia|reflexivity]. }
  rewrite iterations_loop_step.
  destruct (MASTER_PATTERN_match code p) as [mo|] eqn:M.
  2:{ unfold end_after. simpl. split; [lia|reflexivity]. }
  pose proof (MASTER_PATTERN_match_bounds code p mo Hp M) as B.
  destruct (MASTER_PATTERN_match_Some code p mo Hp M) as (_ & _ & _ & _ & _ & _ & S).
  rewrite end_after_cons. simpl m_end. simpl map. simpl concat.
  change (it_text code (Iter l ls mo)) with (group code mo).
  rewrite S, <- app_assoc.
  assert (Hp' : 0 <= m_end mo <= Z.of_nat (length code)) by lia.
  destruct (lastgroup mo =? "MISMATCH")%string.
  { unfold end_after. simpl. split; [lia|reflexivity]. }
  destruct (lastgroup mo =? "NEWLINE")%string;
    [destruct (IH (l + 1) (m_end mo) (m_end mo) Hp') as (I1 & I2)
    |destruct (IH l ls (m_end mo) Hp') as (I1 & I2)];
    (split; [lia|f_equal; exact I2]).
Qed.

(** Fuel: the cursor moves forward at every iteration, so the loop is
    through before a fuel larger than what is left to read runs out, and
    more fuel changes nothing. *)
Lemma tokenize_loop_enough fuel code : forall l ls p,
  0 <= p <= Z.of_nat (length code) ->
  Z.of_nat (length code) - p < Z.of_nat fuel ->
  snd (tokenize_loop fuel code l ls p) <> OutOfFuel.
Proof.
  induction fuel as [|fuel IH]; intros l ls p Hp Hf; [lia|].
  rewrite tokenize_loop_step.
  destruct (MASTER_PATTERN_match code p) as [mo|] eqn:M; [|discriminate].
  pose proof (MASTER_PATTERN_match_bounds code p mo Hp M) as B. cbv zeta.
  destruct (lastgroup mo =? "MISMATCH")%string; [discriminate|].
  destruct (lastgroup mo =? "NEWLINE")%string; simpl; apply IH; lia.
Qed.

Lemma tokenize_loop_fuel code : forall f1 f2 l ls p,
  0 <= p <= Z.of_nat (length code) ->
  Z.of_nat (length code) - p < Z.of_nat f1 ->
  Z.of_nat (length code) - p < Z.of_nat f2 ->
  tokenize_loop f1 code l ls p = tokenize_loop f2 code l ls p.
Proof.
  induction f1 as [|f1 IH]; intros f2 l ls p Hp H1 H2; [lia|].
  destruct f2 as [|f2]; [lia|].
  rewrite !tokenize_loop_step.
  destruct (MASTER_PATTERN_match code p) as [mo|] eqn:M; [|reflexivity].
  pose proof (MASTER_PATTERN_match_bounds code p mo Hp M) as B. cbv zeta.
  destruct (lastgroup mo =? "MISMATCH")%string; [reflexivity|].
  destruct (lastgroup mo =? "NEWLINE")%string;
    rewrite (IH f2) by lia; reflexivity.
Qed.

Lemma iterations_loop_fuel code : forall f1 f2 l ls p,
  0 <= p <= Z.of_nat (length code) ->
  Z.of_nat (length code) - p < Z.of_nat f1 ->
  Z.of_nat (length code) - p < Z.of_nat f2 ->
  iterations_loop f1 code l ls p = iterations_loop f2 code l ls p.
Proof.
  induction f1 as [|f1 IH]; intros f2 l ls p Hp H1 H2; [lia|].
  destruct f2 as [|f2]; [lia|].
  rewrite !iterations_loop_step.
  destruct (MASTER_PATTERN_match code p) as [mo|] eqn:M; [|reflexivity].
  pose proof (MASTER_PATTERN_match_bounds code p mo Hp M) as B.
  destruct (lastgroup mo =? "MISMATCH")%string; [reflexivity|].
  destruct (lastgroup mo =? "NEWLINE")%string;
    rewrite (IH f2) by lia; reflexivity.
Qed.

(** A run that stops has read the whole input. *)
Lemma stop_at_end fuel code : forall l ls p,
  0 <= p <= Z.of_nat (length code) ->
  snd (tokenize_loop fuel code l ls p) = StopIteration ->
  end_after p (iterations_loop fuel code l ls p) = Z.of_nat (length code).
Proof.
  induction fuel as [|fuel IH]; intros l ls p Hp; [discriminate|].
  rewrite tokenize_loop_step, iterations_loop_step.
  destruct (MASTER_PATTERN_match code p) as [mo|] eqn:M.
  2:{ intros _. apply MASTER_PATTERN_match_None in M; auto. }
  pose proof (MASTER_PATTERN_match_bounds code p mo Hp M) as B. cbv zeta.
  rewrite end_after_cons. simpl m_end.
  destruct (lastgroup mo =? "MISMATCH")%string; [discriminate|].
  destruct (lastgroup mo =? "NEWLINE")%string; simpl; apply IH; lia.
Qed.

(** The cursor an iteration is met with, counted on the iterations before
    it: one line per NEWLINE match, the line starting where the last of
    them ended, the match starting where the previous one ended. *)
Lemma iterations_loop_cursor fuel code : forall l ls p pre it post,
  0 <= p <= Z.of_nat (length code) ->
  iterations_loop fuel code l ls p = pre ++ it :: post ->
  it_line it = l + newlines pre /\
  it_line_start it = line_start_after ls pre /\
  m_start (it_match it) = end_after p pre.
Proof.
  induction fuel as [|fuel IH]; intros l ls p pre it post Hp H.
  { destruct pre; discriminate. }
  rewrite iterations_loop_step in H.
  destruct (MASTER_PATTERN_match code p) as [mo|] eqn:M.
  2:{ destruct pre; discriminate. }
  pose proof (MASTER_PATTERN_match_bounds code p mo Hp M) as B.
  destruct (MASTER_PATTERN_match_Some code p mo Hp M) as (_ & _ & _ & _ & S & _).
  destruct pre as [|it0 pre].
  - injection H as <- _. unfold newlines, end_after. simpl. repeat split; auto; lia.
  - injection H as <- H.
    rewrite newlines_cons, end_after_cons. simpl line_start_after.
    change (it_kind (Iter l ls mo)) with (lastgroup mo). simpl m_end.
    destruct (lastgroup mo =? "MISMATCH")%string.
    { destruct pre; discriminate. }
    destruct (lastgroup mo =? "NEWLINE")%string;
      (apply IH in H as (H1 & H2 & H3); [repeat split; auto; lia|lia]).
Qed.

End Loop.

(** ** The languages of the categories *)

Section Languages.
Context {U : Unicode}.

Lemma lang_Class_inv p t :
  lang (Class p) t -> exists c, t = [c] /\ p c = true.
Proof. inversion 1; subst; eauto. Qed.

Lemma lang_Cat_inv r1 r2 t :
  lang (Cat r1 r2) t -> exists t1 t2, t = t1 ++ t2 /\ lang r1 t1 /\ lang r2 t2.
Proof. inversion 1; subst; eauto. Qed.

Lemma lang_Alt_inv r1 r2 t : lang (Alt r1 r2) t -> lang r1 t \/ lang r2 t.
Proof. inversion 1; subst; auto. Qed.

Lemma lang_Chr_inv c t : lang (Chr c) t -> t = [c].
Proof.
  intros H. apply lang_Class_inv in H as (c' & -> & E).
  apply N.eqb_eq in E. subst. reflexivity.
Qed.

Lemma lang_Star_Class p t :
  lang (Star (Class p)) t -> Forall (fun c => p c = true) t.
Proof.
  intros H. remember (Star (Class p)) as r eqn:Er.
  induction H; try discriminate; injection Er as ->; [constructor|].
  apply lang_Class_inv in H as (c & -> & E).
  constructor; auto.
Qed.

Lemma lang_Lit cs : forall t, lang (Lit cs) t -> t = cs.
Proof.
  induction cs as [|c cs IH]; intros t H.
  - inversion H. reflexivity.
  - destruct cs as [|c' cs].
    + apply lang_Chr_inv in H. exact H.
    + change (Lit (c :: c' :: cs)) with (Cat (Chr c) (Lit (c' :: cs))) in H.
      apply lang_Cat_inv in H as (t1 & t2 & -> & H1 & H2).
      apply lang_Chr_inv in H1. apply IH in H2. subst. reflexivity.
Qed.

(** The category names are those of the table, each with its pattern. *)
Lemma TOKEN_SPECIFICATION_cases name r (P : string -> regex -> Prop) :
  In (name, r) TOKEN_SPECIFICATION ->
  P "NUMBER"%string NUMBER_re -> P "ID"%string ID_re ->
  P "STRING"%string STRING_re -> P "COMMENT"%string COMMENT_re ->
  P "NEWLINE"%string NEWLINE_re -> P "SKIP"%string SKIP_re ->
  P "OP"%string OP_re -> P "PUNCT"%string PUNCT_re ->
  P "MISMATCH"%string MISMATCH_re ->
  P name r.
Proof.
  simpl. intros H.
  repeat (destruct H as [H|H]; [injection H as <- <-; intros; assumption|]).
  destruct H.
Qed.

Lemma lang_NEWLINE t : lang NEWLINE_re t -> t = [10%N].
Proof. apply lang_Chr_inv. Qed.

Lemma lang_SKIP t :
  lang SKIP_re t -> Forall (fun c => whitespace c = true) t.
Proof.
  intros H. apply lang_Cat_inv in H as (t1 & t2 & -> & H1 & H2).
  apply lang_Class_inv in H1 as (c & -> & E).
  apply lang_Star_Class in H2.
  assert (W : forall c, existsb (N.eqb c) (of_string (" " ++ TAB ++ CR)) = true ->
                        whitespace c = true).
  { intros c'. unfold whitespace. simpl.
    destruct (c' =? 32)%N, (c' =? 9)%N, (c' =? 13)%N; simpl; auto; discriminate. }
  constructor; auto.
  eapply Forall_impl; [|exact H2]. auto.
Qed.

Lemma lang_COMMENT t :
  lang COMMENT_re t ->
  (exists body, t = of_string "//" ++ body /\ ~ In 10%N body) \/
  (exists body, t = of_string "/*" ++ body ++ of_string "*/").
Proof.
  intros H. apply lang_Alt_inv in H as [H|H];
    apply lang_Cat_inv in H as (t1 & t2 & -> & H1 & H2);
    apply lang_Lit in H1; subst t1.
  - left. exists t2. split; auto.
    apply lang_Star_Class in H2. rewrite Forall_forall in H2.
    intros I. apply H2 in I. discriminate.
  - right. apply lang_Cat_inv in H2 as (b & e & -> & _ & H3).
    apply lang_Lit in H3. subst e. eauto.
Qed.

(** A STRING match opens and closes with a double quote. *)
Lemma lang_STRING t :
  lang STRING_re t -> exists body, t = 34%N :: body ++ [34%N].
Proof.
  intros H. apply lang_Cat_inv in H as (t1 & t2 & -> & H1 & H2).
  apply lang_Chr_inv in H1. subst t1.
  apply lang_Cat_inv in H2 as (b & e & -> & _ & H3).
  apply lang_Chr_inv in H3. subst e. exists b. reflexivity.
Qed.

End Languages.

(** ** Whole runs *)

Section Run.
Context {U : Unicode}.
Local Open Scope Z_scope.

Lemma length_fuel (code : str) :
  0 <= 0 <= Z.of_nat (length code) /\
  Z.of_nat (length code) - 0 < Z.of_nat (S (length code)).
Proof. lia. Qed.

(** [tokenize] never runs out of fuel, and is what the loop gives with any
    larger fuel. *)
Lemma tokenize_total code : snd (tokenize code) <> OutOfFuel.
Proof.
  destruct (length_fuel code) as (H1 & H2).
  apply tokenize_loop_enough; assumption.
Qed.

Lemma tokenize_more_fuel code fuel :
  (length code < fuel)%nat -> tokenize_loop fuel code 1 0 0 = tokenize code.
Proof.
  intros H. destruct (length_fuel code) as (H1 & H2).
  apply tokenize_loop_fuel; auto. lia.
Qed.

(** Each iteration matched a non-empty word of its category's language. *)
Lemma iterations_lang code :
  Forall (fun it => exists r,
            In (it_kind it, r) TOKEN_SPECIFICATION /\
            lang r (it_text code it) /\ it_text code it <> [])
         (iterations code).
Proof.
  destruct (length_fuel code) as (H1 & _).
  pose proof (iterations_loop_matches (S (length code)) code 1 0 0 H1) as F.
  eapply Forall_impl; [|exact F].
  intros it (B & M).
  destruct (MASTER_PATTERN_match_Some code _ _ B M) as (r & I & L & Ne & _).
  exists r. auto.
Qed.

(** The run of [tokenize] on its iterations. *)
Lemma tokenize_trace code :
  let its := iterations code in
  match snd (tokenize code) with
  | StopIteration =>
      fst (tokenize code) =
        flat_map (emit code) its ++
        [Tok "EOF" [] (1 + newlines its)
             (Z.of_nat (length code) - line_start_after 0 its + 1)] /\
      Forall not_mismatch its /\
      concat (map (it_text code) its) = code
  | Raise e =>
      exists pre it,
        its = pre ++ [it] /\ Forall not_mismatch pre /\
        it_kind it = "MISMATCH"%string /\
        e = Unexpected (it_text code it) (it_line it) (it_column it) /\
        fst (tokenize code) = flat_map (emit code) pre
  | OutOfFuel => False
  end.
Proof.
  destruct (length_fuel code) as (H1 & H2).
  pose proof (tokenize_loop_trace (S (length code)) code 1 0 0) as T.
  pose proof (tokenize_total code) as NF.
  pose proof (stop_at_end (S (length code)) code 1 0 0 H1) as E.
  pose proof (iterations_loop_concat (S (length code)) code 1 0 0 H1) as C.
  cbv zeta in *. fold (tokenize code) in *. fold (iterations code) in *.
  destruct (snd (tokenize code)) as [|e|]; [|exact T|congruence].
  destruct T as (T & F). specialize (E eq_refl). rewrite E in *.
  repeat split; auto.
  destruct C as (_ & C). rewrite Nat2Z.id, skipn_all, app_nil_r in C. exact C.
Qed.

Lemma texts_app a b : texts (a ++ b) = texts a ++ texts b.
Proof. unfold texts. rewrite map_app, concat_app. reflexivity. Qed.

(** What a branch of the loop body yields, by category: nothing for the
    dropped ones, one token with the matched text for the others. *)
Lemma emit_cases code it r :
  In (it_kind it, r) TOKEN_SPECIFICATION -> not_mismatch it ->
  if dropped (it_kind it) then emit code it = []
  else exists ty,
      emit code it = [Tok ty (it_text code it) (it_line it) (it_column it)] /\
      ty <> "EOF"%string /\
      (In ty ["NUMBER"; "STRING"; "OP"; "PUNCT"]%string /\ ty = it_kind it \/
       it_kind it = "ID"%string /\
       ty = if in_KEYWORDS (it_text code it) then "KEYWORD"%string else "IDENT"%string).
Proof.
  intros I NM. unfold not_mismatch in NM. unfold emit.
  simpl in I.
  repeat (destruct I as [I|I];
          [injection I as I _; rewrite <- I in *; simpl;
           first [ reflexivity
                 | exfalso; apply NM; reflexivity
                 | eexists; split; [reflexivity|]; split;
                   [try destruct (in_KEYWORDS _); discriminate|];
                   first [ left; split; [simpl; tauto|reflexivity]
                         | right; split; reflexivity ] ]|]).
  destruct I.
Qed.

Lemma emit_MISMATCH code it :
  it_kind it = "MISMATCH"%string -> emit code it = [].
Proof. intros K. unfold emit. rewrite K. reflexivity. Qed.

Lemma emit_texts code it r :
  In (it_kind it, r) TOKEN_SPECIFICATION -> not_mismatch it ->
  texts (emit code it) = if dropped (it_kind it) then [] else it_text code it.
Proof.
  intros I NM. pose proof (emit_cases code it r I NM) as E.
  destruct (dropped (it_kind it)).
  - rewrite E. reflexivity.
  - destruct E as (ty & -> & _). unfold texts. simpl. apply app_nil_r.
Qed.

(** A token yielded by an iteration of the scan. *)
Lemma emit_In code it t :
  In it (iterations code) -> In t (emit code it) ->
  exists ty,
    t = Tok ty (it_text code it) (it_line it) (it_column it) /\
    it_text code it <> [] /\ ty <> "EOF"%string /\
    (In ty ["NUMBER"; "STRING"; "OP"; "PUNCT"]%string /\ ty = it_kind it \/
     it_kind it = "ID"%string /\
     ty = if in_KEYWORDS (it_text code it) then "KEYWORD"%string else "IDENT"%string).
Proof.
  intros Hit Ht.
  pose proof (iterations_lang code) as F. rewrite Forall_forall in F.
  destruct (F it Hit) as (r & I & _ & Ne).
  destruct (String.eqb_spec (it_kind it) "MISMATCH") as [K|NM].
  { rewrite (emit_MISMATCH code it K) in Ht. destruct Ht. }
  pose proof (emit_cases code it r I NM) as E.
  destruct (dropped (it_kind it)).
  - rewrite E in Ht. destruct Ht.
  - destruct E as (ty & E & NE & C). rewrite E in Ht.
    destruct Ht as [<-|[]]. exists ty. auto.
Qed.

(** The tokens of a run: those its iterations yield, and EOF. *)
Lemma tokenize_In code t :
  In t (fst (tokenize code)) ->
  (exists it, In it (iterations code) /\ In t (emit code it)) \/
  (snd (tokenize code) = StopIteration /\ type t = "EOF"%string /\ value t = []).
Proof.
  pose proof (tokenize_trace code) as T. cbv zeta in T.
  destruct (snd (tokenize code)) as [|e|]; [| |contradiction].
  - destruct T as (-> & _). intros H. apply in_app_or in H as [H|[<-|[]]].
    + left. apply in_flat_map in H. exact H.
    + right. auto.
  - destruct T as (pre & it & E & _ & _ & _ & ->). intros H. left.
    apply in_flat_map in H as (it' & I & H). exists it'. split; auto.
    rewrite E. apply in_or_app. auto.
Qed.

(** The line of the cursor starts at or before the cursor. *)
Lemma iterations_loop_line_start fuel code : forall l ls p,
  0 <= p <= Z.of_nat (length code) -> ls <= p ->
  Forall (fun it => it_line_start it <= m_start (it_match it) /\ l <= it_line it)
         (iterations_loop fuel code l ls p).
Proof.
  induction fuel as [|fuel IH]; intros l ls p Hp Hls; [constructor|].
  rewrite iterations_loop_step.
  destruct (MASTER_PATTERN_match code p) as [mo|] eqn:M; [|constructor].
  pose proof (MASTER_PATTERN_match_bounds code p mo Hp M) as B.
  destruct (MASTER_PATTERN_match_Some code p mo Hp M) as (_ & _ & _ & _ & S & _).
  constructor; [simpl; lia|].
  destruct (lastgroup mo =? "MISMATCH")%string; [constructor|].
  destruct (lastgroup mo =? "NEWLINE")%string.
  - eapply Forall_impl; [|apply (IH (l + 1) (m_end mo) (m_end mo)); lia].
    simpl. intros it (H1 & H2). lia.
  - apply IH; lia.
Qed.

Lemma str_eqb_eq a b : str_eqb a b = true <-> a = b.
Proof.
  unfold str_eqb. destruct (list_eq_dec N.eq_dec a b); split; auto; discriminate.
Qed.

Lemma in_KEYWORDS_In v : in_KEYWORDS v = true <-> In v KEYWORDS.
Proof.
  unfold in_KEYWORDS. rewrite existsb_exists. split.
  - intros (k & I & E). apply str_eqb_eq in E. subst. exact I.
  - intros I. exists v. split; auto. apply str_eqb_eq. reflexivity.
Qed.

Lemma emit_in_tokens code it t :
  In it (iterations code) -> In t (emit code it) -> In t (fst (tokenize code)).
Proof.
  intros Hit Ht. pose proof (tokenize_trace code) as T. cbv zeta in T.
  destruct (snd (tokenize code)) as [|e|]; [| |contradiction].
  - destruct T as (-> & _). apply in_or_app. left.
    apply in_flat_map. eauto.
  - destruct T as (pre & it' & Eits & _ & K' & _ & ->).
    apply in_flat_map. exists it. split; auto.
    rewrite Eits in Hit. apply in_app_or in Hit as [Hit|[<-|[]]]; auto.
    rewrite (emit_MISMATCH code it' K') in Ht. destruct Ht.
Qed.

Lemma last_is_the_mismatch (P : iteration -> Prop) :
  forall pre it post pre' it',
    pre ++ it :: post = pre' ++ [it'] -> Forall P pre' -> ~ P it ->
    post = [] /\ pre = pre' /\ it = it'.
Proof.
  induction pre as [|x pre IH]; intros it post pre' it' E F N.
  - destruct pre' as [|a pre'].
    + injection E as -> ->. auto.
    + injection E as <- _. inversion F; contradiction.
  - destruct pre' as [|a pre'].
    + injection E as _ E. destruct pre; discriminate E.
    + injection E as <- E. inversion F; subst.
      destruct (IH _ _ _ _ E) as (-> & -> & ->); auto.
Qed.

Lemma texts_flat_map_emit code its :
  Forall (fun it => exists r, In (it_kind it, r) TOKEN_SPECIFICATION) its ->
  Forall not_mismatch its ->
  texts (flat_map (emit code) its) = meaningful code its.
Proof.
  unfold meaningful.
  induction its as [|it its IH]; intros HI HN; [reflexivity|].
  inversion HI as [|? ? (r & I) HI']; inversion HN as [|? ? NM HN']; subst.
  simpl flat_map. rewrite texts_app, (emit_texts code it r I NM), IH by assumption.
  simpl filter. destruct (dropped (it_kind it)); reflexivity.
Qed.

End Run.

(** ** How far each category reads *)

Section Extents.
Context {U : Unicode}.

Lemma run_Class_cons {A : Type} p c s (k : str -> option A) :
  run (Class p) (c :: s) k = if p c then k s else None.
Proof. reflexivity. Qed.

(** A greedy repetition of a character class takes the longest run when the
    rest of the pattern accepts what is left after it. *)
Lemma greedy_class {A : Type} p (k : str -> option A) x : forall n s,
  (length s <= n)%nat -> k (skip_while p s) = Some x ->
  greedy_loop k (run (A:=A) (Class p)) n s = Some x.
Proof.
  induction n as [|n IH]; intros s Hn H.
  - destruct s; [exact H|simpl in Hn; lia].
  - cbn [greedy_loop]. destruct s as [|c t]; [exact H|].
    rewrite run_Class_cons. cbn [skip_while] in H.
    destruct (p c).
    + assert (L : (length t <? length (c :: t))%nat = true)
        by (apply Nat.ltb_lt; simpl; lia).
      rewrite L, IH; auto. simpl in Hn. lia.
    + exact H.
Qed.

Lemma run_Star_Class {A : Type} p s (k : str -> option A) x :
  k (skip_while p s) = Some x -> run (Star (Class p)) s k = Some x.
Proof. intros H. rewrite run_Star. apply greedy_class; auto. Qed.

Lemma run_Plus_Class {A : Type} p c s (k : str -> option A) :
  run (Plus (Class p)) (c :: s) k =
  if p c then run (Star (Class p)) s k else None.
Proof. reflexivity. Qed.

Lemma skip_while_stops p s :
  match skip_while p s with
  | c :: _ => p c = false
  | [] => True
  end.
Proof.
  induction s as [|c t IH]; simpl; auto.
  destruct (p c) eqn:E; auto.
Qed.

Lemma skip_while_app p a rest :
  Forall (fun c => p c = true) a ->
  skip_while p (a ++ rest) = skip_while p rest.
Proof.
  induction 1 as [|c a Hc _ IH]; simpl; auto. rewrite Hc. exact IH.
Qed.

(** *** NUMBER *)

Lemma run_fraction s :
  run (Opt (Cat (Chr 46%N) (Plus (Class digit)))) s (fun s' => Some s') =
  Some (fraction_rest s).
Proof.
  unfold Opt. rewrite run_Alt, run_Cat, run_Chr.
  destruct s as [|c [|d t]]; cbn [fraction_rest].
  - reflexivity.
  - destruct (c =? 46)%N; reflexivity.
  - destruct (c =? 46)%N; cbn [andb]; [|reflexivity].
    rewrite run_Plus_Class. destruct (digit d); [|reflexivity].
    rewrite (run_Star_Class digit t _ (skip_while digit t)); reflexivity.
Qed.

Lemma run_NUMBER c s :
  run NUMBER_re (c :: s) (fun s' => Some s') =
  if digit c then Some (number_rest s) else None.
Proof.
  unfold NUMBER_re. rewrite run_Cat, run_Plus_Class.
  destruct (digit c); [|reflexivity].
  apply run_Star_Class. apply run_fraction.
Qed.

(** *** ID *)

Lemma run_ID c s :
  run ID_re (c :: s) (fun s' => Some s') =
  if id_start c then Some (skip_while word s) else None.
Proof.
  unfold ID_re. rewrite run_Cat, run_Class_cons.
  destruct (id_start c); [|reflexivity].
  apply run_Star_Class. reflexivity.
Qed.

Lemma id_start_not_digit c : id_start c = true -> digit c = false.
Proof.
  unfold id_start, digit, ascii_letter, ascii_digit.
  destruct (N.leb_spec 65 c), (N.leb_spec c 90), (N.leb_spec 97 c),
    (N.leb_spec c 122), (N.eqb_spec c 95), (N.ltb_spec c 128),
    (N.leb_spec 48 c), (N.leb_spec c 57);
    simpl; intros; try reflexivity; try discriminate; lia.
Qed.

(** *** STRING *)

Lemma string_loop_end : forall n s,
  (length s <= n)%nat ->
  greedy_loop (fun s' => run (Chr 34%N) s' (fun s'' => Some s''))
    (run (A:=str) (Alt (Cat (Chr 92%N) (Class dot)) (NoneOf (QUOTE ++ BACKSLASH))))
    n s = string_end s.
Proof.
  induction n as [|n IH]; intros s Hn.
  { destruct s; [reflexivity|simpl in Hn; lia]. }
  cbn [greedy_loop]. destruct s as [|c t]; [reflexivity|].
  simpl in Hn. cbn [string_end].
  rewrite run_Alt, run_Cat, !run_Chr.
  change (run (NoneOf (QUOTE ++ BACKSLASH)) (c :: t) ?k)
    with (if negb ((c =? 34)%N || ((c =? 92)%N || false)) then k t else None).
  assert (L1 : (length t <? length (c :: t))%nat = true)
    by (apply Nat.ltb_lt; simpl; lia).
  destruct (c =? 34)%N eqn:E1.
  - assert (E2 : (c =? 92)%N = false).
    { apply N.eqb_eq in E1. subst. reflexivity. }
    rewrite E2. reflexivity.
  - destruct (c =? 92)%N eqn:E2; cbn [orb negb].
    + destruct t as [|d t']; [reflexivity|]. rewrite run_Class_cons.
      destruct (dot d); [|reflexivity].
      assert (L2 : (length t' <? length (c :: d :: t'))%nat = true)
        by (apply Nat.ltb_lt; simpl; lia).
      rewrite L2, IH by (simpl in Hn; lia).
      destruct (string_end t'); reflexivity.
    + rewrite L1, IH by lia. destruct (string_end t); reflexivity.
Qed.

Lemma run_STRING s :
  run STRING_re (34%N :: s) (fun s' => Some s') = string_end s.
Proof.
  change (run STRING_re (34%N :: s) (fun s' => Some s'))
    with (greedy_loop (fun s' => run (Chr 34%N) s' (fun s'' => Some s''))
            (run (A:=str) (Alt (Cat (Chr 92%N) (Class dot))
                               (NoneOf (QUOTE ++ BACKSLASH))))
            (length s) s).
  apply string_loop_end. apply le_n.
Qed.

(** *** COMMENT *)

Lemma block_loop_end : forall n s,
  (length s <= n)%nat ->
  lazy_loop (fun s' => run (Lit (of_string "*/")) s' (fun s'' => Some s''))
    (run (A:=str) (Class space_or_not)) n s = block_end s.
Proof.
  assert (K : forall s, run (Lit (of_string "*/")) s (fun s'' => Some s'') =
                        match s with
                        | c :: d :: t' =>
                            if (c =? 42)%N && (d =? 47)%N then Some t' else None
                        | _ => None
                        end).
  { intros s.
    change (Lit (of_string "*/")) with (Cat (Chr 42%N) (Chr 47%N)).
    rewrite run_Cat, run_Chr. destruct s as [|c [|d t']]; try reflexivity.
    - destruct (c =? 42)%N; reflexivity.
    - rewrite run_Chr. destruct (c =? 42)%N; reflexivity. }
  induction n as [|n IH]; intros s Hn.
  { destruct s; [reflexivity|simpl in Hn; lia]. }
  cbn [lazy_loop]. rewrite K.
  destruct s as [|c t]; [reflexivity|]. simpl in Hn.
  assert (L : (length t <? length (c :: t))%nat = true)
    by (apply Nat.ltb_lt; simpl; lia).
  rewrite run_Class_cons. cbn [space_or_not block_end].
  rewrite L, IH by lia.
  destruct t as [|d t']; [reflexivity|].
  destruct ((c =? 42)%N && (d =? 47)%N); reflexivity.
Qed.

Lemma run_COMMENT_line s :
  run COMMENT_re (47%N :: 47%N :: s) (fun s' => Some s') =
  Some (skip_while not_LF s).
Proof.
  unfold COMMENT_re. rewrite run_Alt.
  change (run (Cat (Lit (of_string "//")) (Star (NoneOf LF)))
              (47%N :: 47%N :: s) (fun s' => Some s'))
    with (run (Star (Class not_LF)) s (fun s' => Some s')).
  rewrite (run_Star_Class not_LF s _ (skip_while not_LF s)); reflexivity.
Qed.

Lemma run_COMMENT_block s :
  run COMMENT_re (47%N :: 42%N :: s) (fun s' => Some s') = block_end s.
Proof.
  unfold COMMENT_re. rewrite run_Alt.
  change (run (Cat (Lit (of_string "//")) (Star (NoneOf LF)))
              (47%N :: 42%N :: s) (fun s' => Some s'))
    with (@None str).
  change (run (Cat (Lit (of_string "/*"))
                   (Cat (LazyStar (Class space_or_not)) (Lit (of_string "*/"))))
              (47%N :: 42%N :: s) (fun s' => Some s'))
    with (lazy_loop (fun s' => run (Lit (of_string "*/")) s' (fun s'' => Some s''))
            (run (A:=str) (Class space_or_not)) (length s) s).
  apply block_loop_end. apply le_n.
Qed.

(** *** SKIP *)

Lemma run_SKIP c s :
  run SKIP_re (c :: s) (fun s' => Some s') =
  if blank c then Some (skip_while blank s) else None.
Proof.
  change SKIP_re with (Plus (Class blank)).
  rewrite run_Plus_Class. destruct (blank c); [|reflexivity].
  apply run_Star_Class. reflexivity.
Qed.

End Extents.

(** ** The match at the cursor, by its first character *)

Section Dispatch.
Context {U : Unicode}.
Local Open Scope Z_scope.

Lemma existsb_false_In (c : char) l x :
  existsb (N.eqb c) l = false -> In x l -> (c =? x)%N = false.
Proof.
  intros H I. destruct (c =? x)%N eqn:E; auto.
  rewrite <- H. symmetry. apply existsb_exists. eauto.
Qed.

Lemma run_Lit_other (A : Type) a l c s (k : str -> option A) :
  (c =? a)%N = false -> run (Lit (a :: l)) (c :: s) k = None.
Proof.
  intros H. destruct l as [|b l].
  - cbn [Lit]. rewrite run_Chr, H. reflexivity.
  - change (Lit (a :: b :: l)) with (Cat (Chr a) (Lit (b :: l))).
    rewrite run_Cat, run_Chr, H. reflexivity.
Qed.

Lemma run_STRING_other (c : char) (s : str) :
  (c =? 34)%N = false -> run STRING_re (c :: s) (fun s' => Some s') = None.
Proof.
  intros H. unfold STRING_re. rewrite run_Cat, run_Chr, H. reflexivity.
Qed.

Lemma run_COMMENT_other (c : char) (s : str) :
  (c =? 47)%N = false -> run COMMENT_re (c :: s) (fun s' => Some s') = None.
Proof.
  intros H. unfold COMMENT_re.
  rewrite run_Alt, !run_Cat.
  rewrite (run_Lit_other _ 47%N [47%N] c s _ H).
  rewrite (run_Lit_other _ 47%N [42%N] c s _ H).
  reflexivity.
Qed.

Lemma run_NEWLINE (c : char) (s : str) :
  run NEWLINE_re (c :: s) (fun s' => Some s') =
  if (c =? 10)%N then Some s else None.
Proof. unfold NEWLINE_re. rewrite run_Chr. reflexivity. Qed.

Lemma run_OP_other (c : char) (s : str) :
  existsb (N.eqb c) (of_string "+-*/%=<>!") = false ->
  run OP_re (c :: s) (fun s' => Some s') = None.
Proof.
  intros H.
  assert (E : forall x, In x (of_string "+-*/%=<>!") -> (c =? x)%N = false)
    by (intros x; apply existsb_false_In, H).
  unfold OP_re. rewrite !run_Alt.
  rewrite (run_Lit_other _ 61%N [61%N]) by (apply E; simpl; tauto).
  rewrite (run_Lit_other _ 33%N [61%N]) by (apply E; simpl; tauto).
  rewrite (run_Lit_other _ 60%N [61%N]) by (apply E; simpl; tauto).
  rewrite (run_Lit_other _ 62%N [61%N]) by (apply E; simpl; tauto).
  rewrite (run_Lit_other _ 43%N [43%N]) by (apply E; simpl; tauto).
  rewrite (run_Lit_other _ 45%N [45%N]) by (apply E; simpl; tauto).
  rewrite (run_Lit_other _ 45%N [62%N]) by (apply E; simpl; tauto).
  unfold OneOf. rewrite run_Class_cons, H. reflexivity.
Qed.

Lemma run_OP_some (c : char) (s : str) :
  existsb (N.eqb c) (of_string "+-*/%=<>!") = true ->
  run OP_re (c :: s) (fun s' => Some s') <> None.
Proof.
  intros H. unfold OP_re. rewrite !run_Alt.
  repeat match goal with
         | |- match ?r with Some _ => _ | None => _ end <> None =>
             destruct r; [discriminate|]
         end.
  unfold OneOf. rewrite run_Class_cons, H. discriminate.
Qed.

Lemma run_PUNCT (c : char) (s : str) :
  run PUNCT_re (c :: s) (fun s' => Some s') =
  if existsb (N.eqb c) (of_string "()[]{},;.") then Some s else None.
Proof. reflexivity. Qed.

Lemma run_MISMATCH (c : char) (s : str) :
  run MISMATCH_re (c :: s) (fun s' => Some s') = if dot c then Some s else None.
Proof. reflexivity. Qed.

(** The master pattern, one category after the other. *)
Lemma alternation_unfold (s : str) :
  alternation TOKEN_SPECIFICATION s =
  let k := fun s' : str => Some s' in
  match run NUMBER_re s k with Some r => Some ("NUMBER"%string, r) | None =>
  match run ID_re s k with Some r => Some ("ID"%string, r) | None =>
  match run STRING_re s k with Some r => Some ("STRING"%string, r) | None =>
  match run COMMENT_re s k with Some r => Some ("COMMENT"%string, r) | None =>
  match run NEWLINE_re s k with Some r => Some ("NEWLINE"%string, r) | None =>
  match run SKIP_re s k with Some r => Some ("SKIP"%string, r) | None =>
  match run OP_re s k with Some r => Some ("OP"%string, r) | None =>
  match run PUNCT_re s k with Some r => Some ("PUNCT"%string, r) | None =>
  match run MISMATCH_re s k with Some r => Some ("MISMATCH"%string, r) | None =>
  None end end end end end end end end end.
Proof. reflexivity. Qed.

(** An iteration of a scan is the match of the master pattern on the text
    from its start, and leaves the text from its end. *)
Lemma iteration_alternation code it :
  In it (iterations code) ->
  exists c s,
    skipn (Z.to_nat (m_start (it_match it))) code = c :: s /\
    alternation TOKEN_SPECIFICATION (c :: s) =
      Some (it_kind it, skipn (Z.to_nat (m_end (it_match it))) code).
Proof.
  intros Hit. destruct (length_fuel code) as (H0 & _).
  pose proof (iterations_loop_matches (S (length code)) code 1 0 0 H0) as F.
  rewrite Forall_forall in F. destruct (F it Hit) as (B & M). clear F Hit.
  unfold it_kind. destruct (it_match it) as [kind st en].
  cbn [m_start m_end lastgroup] in *.
  unfold MASTER_PATTERN_match in M.
  destruct (alternation _ _) as [[name rest]|] eqn:E; [|discriminate].
  destruct (alternation_TOKEN_SPECIFICATION _ _ _ E) as (r & t & _ & _ & Ne & Es).
  destruct (skipn_split code _ t rest B Es) as (_ & _ & Hr).
  injection M as -> _ <-. rewrite Hr.
  destruct (skipn (Z.to_nat st) code) as [|c s].
  - destruct t; [congruence|discriminate].
  - exists c, s. split; [reflexivity|exact E].
Qed.

End Dispatch.

Section FirstCharacter.
Context {U : Unicode}.
Local Open Scope Z_scope.

Lemma alternation_id_start (c : char) (s : str) :
  id_start c = true ->
  alternation TOKEN_SPECIFICATION (c :: s) = Some ("ID"%string, skip_while word s).
Proof.
  intros H. rewrite alternation_unfold. cbv zeta.
  rewrite run_NUMBER, (id_start_not_digit c H), run_ID, H. reflexivity.
Qed.

Lemma alternation_digit (c : char) (s : str) :
  digit c = true ->
  alternation TOKEN_SPECIFICATION (c :: s) = Some ("NUMBER"%string, number_rest s).
Proof.
  intros H. rewrite alternation_unfold. cbv zeta.
  rewrite run_NUMBER, H. reflexivity.
Qed.

Lemma number_rest_stops (s : str) :
  match number_rest s with
  | d :: _ => digit d = false
  | [] => True
  end.
Proof.
  unfold number_rest. pose proof (skip_while_stops digit s) as H.
  destruct (skip_while digit s) as [|c [|d t]]; cbn [fraction_rest]; auto.
  destruct ((c =? 46)%N && digit d); [apply skip_while_stops|exact H].
Qed.

Lemma alternation_quote (s : str) :
  alternation TOKEN_SPECIFICATION (34%N :: s) =
  match string_end s with
  | Some r => Some ("STRING"%string, r)
  | None => Some ("MISMATCH"%string, s)
  end.
Proof.
  rewrite alternation_unfold. cbv zeta. rewrite run_STRING.
  destruct (string_end s); reflexivity.
Qed.

Lemma alternation_line_comment (s : str) :
  alternation TOKEN_SPECIFICATION (47%N :: 47%N :: s) =
  Some ("COMMENT"%string, skip_while not_LF s).
Proof.
  rewrite alternation_unfold. cbv zeta. rewrite run_COMMENT_line. reflexivity.
Qed.

Lemma alternation_block_comment (s : str) :
  alternation TOKEN_SPECIFICATION (47%N :: 42%N :: s) =
  match block_end s with
  | Some r => Some ("COMMENT"%string, r)
  | None => Some ("OP"%string, 42%N :: s)
  end.
Proof.
  rewrite alternation_unfold. cbv zeta. rewrite run_COMMENT_block.
  destruct (block_end s); reflexivity.
Qed.

Lemma blank_cases (c : char) : blank c = true -> c = 32%N \/ c = 9%N \/ c = 13%N.
Proof.
  unfold blank. cbn [existsb].
  destruct (N.eqb_spec c 32), (N.eqb_spec c 9), (N.eqb_spec c 13);
    auto; discriminate.
Qed.

Lemma alternation_blank (c : char) (s : str) :
  blank c = true ->
  alternation TOKEN_SPECIFICATION (c :: s) = Some ("SKIP"%string, skip_while blank s).
Proof.
  intros H. rewrite alternation_unfold. cbv zeta. rewrite run_SKIP, H.
  destruct (blank_cases c H) as [->|[->| ->]]; reflexivity.
Qed.

Lemma alternation_line_feed (s : str) :
  alternation TOKEN_SPECIFICATION (10%N :: s) = Some ("NEWLINE"%string, s).
Proof. reflexivity. Qed.

Lemma plain_char_split (c : char) :
  plain_char c =
  digit c || id_start c || whitespace c ||
  (existsb (N.eqb c) (of_string "+-*/%=<>!") ||
   existsb (N.eqb c) (of_string "()[]{},;.")).
Proof. unfold plain_char. rewrite <- existsb_app. reflexivity. Qed.

Lemma plain_char_cases (c : char) :
  plain_char c = true ->
  digit c = true \/ id_start c = true \/ blank c = true \/ c = 10%N \/
  existsb (N.eqb c) (of_string "+-*/%=<>!") = true \/
  existsb (N.eqb c) (of_string "()[]{},;.") = true.
Proof.
  rewrite plain_char_split.
  generalize (existsb (N.eqb c) (of_string "+-*/%=<>!")) as o.
  generalize (existsb (N.eqb c) (of_string "()[]{},;.")) as q.
  intros q o. unfold whitespace, blank. cbn [existsb].
  destruct (digit c), (id_start c), (N.eqb_spec c 32), (N.eqb_spec c 9),
    (N.eqb_spec c 13), (N.eqb_spec c 10), o, q; simpl; intros;
    try discriminate; auto 10.
Qed.

(** At a plain character some category before MISMATCH matches. *)
Lemma alternation_plain (c : char) (s : str) (rest : str) :
  plain_char c = true ->
  alternation TOKEN_SPECIFICATION (c :: s) <> Some ("MISMATCH"%string, rest).
Proof.
  intros H.
  destruct (plain_char_cases c H) as [D|[I|[B|[->|[O|P]]]]].
  - rewrite (alternation_digit c s D). discriminate.
  - rewrite (alternation_id_start c s I). discriminate.
  - rewrite (alternation_blank c s B). discriminate.
  - rewrite alternation_line_feed. discriminate.
  - rewrite alternation_unfold. cbv zeta.
    pose proof (run_OP_some c s O) as N.
    do 6 match goal with
         | |- match ?r with Some _ => _ | None => _ end <> _ =>
             destruct r; [discriminate|]
         end.
    destruct (run OP_re (c :: s) _) eqn:E; [discriminate|].
    exfalso. apply N. reflexivity.
  - rewrite alternation_unfold. cbv zeta. rewrite run_PUNCT, P.
    repeat match goal with
           | |- match ?r with Some _ => _ | None => _ end <> _ =>
               destruct r; [discriminate|]
           end.
    discriminate.
Qed.

(** At any other character but the double quote only MISMATCH matches. *)
Lemma alternation_stray (c : char) (s : str) :
  plain_char c = false -> (c =? 34)%N = false ->
  alternation TOKEN_SPECIFICATION (c :: s) = Some ("MISMATCH"%string, s).
Proof.
  rewrite plain_char_split. intros H Q.
  apply orb_false_elim in H as (H & HP).
  apply orb_false_elim in HP as (HO & HP).
  apply orb_false_elim in H as (H & HW).
  apply orb_false_elim in H as (HD & HI).
  assert (H47 : (c =? 47)%N = false)
    by (apply (existsb_false_In c _ 47%N HO); simpl; tauto).
  assert (H10 : (c =? 10)%N = false)
    by (apply (existsb_false_In c _ 10%N HW); simpl; tauto).
  assert (HB : blank c = false).
  { unfold blank, whitespace in *. cbn [existsb] in *.
    destruct (c =? 32)%N, (c =? 9)%N, (c =? 13)%N; simpl in *; congruence. }
  rewrite alternation_unfold. cbv zeta.
  rewrite run_NUMBER, HD, run_ID, HI, (run_STRING_other c s Q),
    (run_COMMENT_other c s H47), run_NEWLINE, H10, run_SKIP, HB,
    (run_OP_other c s HO), run_PUNCT, HP, run_MISMATCH.
  unfold dot. rewrite H10. reflexivity.
Qed.

End FirstCharacter.

(** ** The texts of the categories *)

Section Shapes.
Context {U : Unicode}.
Local Open Scope Z_scope.

Lemma existsb_eqb_In (c : char) l : existsb (N.eqb c) l = true -> In c l.
Proof.
  intros H. apply existsb_exists in H as (x & I & E).
  apply N.eqb_eq in E. subst. exact I.
Qed.

Lemma lang_Plus_Class p t :
  lang (Plus (Class p)) t -> t <> [] /\ Forall (fun c => p c = true) t.
Proof.
  intros H. apply lang_Cat_inv in H as (t1 & t2 & -> & H1 & H2).
  apply lang_Class_inv in H1 as (c & -> & E).
  apply lang_Star_Class in H2. split; [discriminate|].
  constructor; assumption.
Qed.

Lemma lang_NUMBER t :
  lang NUMBER_re t ->
  exists i f, t = i ++ f /\ digits i /\
              (f = [] \/ exists g, f = 46%N :: g /\ digits g).
Proof.
  intros H. apply lang_Cat_inv in H as (i & f & -> & H1 & H2).
  exists i, f. split; [reflexivity|]. split; [apply lang_Plus_Class, H1|].
  apply lang_Alt_inv in H2 as [H2|H2].
  - right. apply lang_Cat_inv in H2 as (d & g & -> & Hd & Hg).
    apply lang_Chr_inv in Hd. subst d. exists g.
    split; [reflexivity|apply lang_Plus_Class, Hg].
  - left. inversion H2. reflexivity.
Qed.

Lemma lang_ID t :
  lang ID_re t ->
  exists c w, t = c :: w /\ id_start c = true /\ Forall (fun d => word d = true) w.
Proof.
  intros H. apply lang_Cat_inv in H as (t1 & w & -> & H1 & H2).
  apply lang_Class_inv in H1 as (c & -> & E).
  apply lang_Star_Class in H2. exists c, w. auto.
Qed.

Lemma lang_OP t :
  lang OP_re t ->
  In t (map of_string ["=="; "!="; "<="; ">="; "++"; "--"; "->"]%string) \/
  exists c, t = [c] /\ In c (of_string "+-*/%=<>!").
Proof.
  unfold OP_re. intros H.
  repeat (apply lang_Alt_inv in H as [H|H];
          [apply lang_Lit in H; subst t; left; simpl; tauto|]).
  right. apply lang_Class_inv in H as (c & -> & E).
  exists c. split; [reflexivity|apply existsb_eqb_In, E].
Qed.

Lemma lang_PUNCT t :
  lang PUNCT_re t -> exists c, t = [c] /\ In c (of_string "()[]{},;.").
Proof.
  intros H. apply lang_Class_inv in H as (c & -> & E).
  exists c. split; [reflexivity|apply existsb_eqb_In, E].
Qed.

Lemma string_end_app (body rest : str) :
  lang (Star (Alt (Cat (Chr 92%N) (Class dot)) (NoneOf (QUOTE ++ BACKSLASH)))) body ->
  string_end (body ++ rest) = string_end rest.
Proof.
  intros H.
  remember (Star (Alt (Cat (Chr 92%N) (Class dot)) (NoneOf (QUOTE ++ BACKSLASH))))
    as r eqn:Er.
  induction H; try discriminate; [reflexivity|].
  injection Er as ->. rewrite <- app_assoc, <- IHlang2 by reflexivity.
  clear IHlang1 IHlang2 H0.
  apply lang_Alt_inv in H as [H|H].
  - apply lang_Cat_inv in H as (a & b & -> & Ha & Hb).
    apply lang_Chr_inv in Ha. subst a.
    apply lang_Class_inv in Hb as (d & -> & Hd).
    simpl. rewrite Hd. reflexivity.
  - apply lang_Class_inv in H as (c & -> & Hc).
    change (negb ((c =? 34)%N || ((c =? 92)%N || false)) = true) in Hc.
    cbn [app string_end].
    destruct (c =? 34)%N; [discriminate|].
    destruct (c =? 92)%N; [discriminate|]. reflexivity.
Qed.

Lemma lang_STRING_closed t :
  lang STRING_re t ->
  exists body, t = 34%N :: body ++ [34%N] /\
               string_end (body ++ [34%N]) = Some [].
Proof.
  intros H. apply lang_Cat_inv in H as (t1 & t2 & -> & H1 & H2).
  apply lang_Chr_inv in H1. subst t1.
  apply lang_Cat_inv in H2 as (b & e & -> & Hb & H3).
  apply lang_Chr_inv in H3. subst e. exists b. split; [reflexivity|].
  etransitivity; [apply (string_end_app b [34%N] Hb)|reflexivity].
Qed.

End Shapes.

(** ** What is deleted and what is kept *)

Section Deletion.
Context {U : Unicode}.
Local Open Scope Z_scope.

Lemma delete_ordinary (c : char) (t : str) :
  ordinary c = true ->
  delete_outside_from Outside (c :: t) = c :: delete_outside_from Outside t.
Proof.
  unfold ordinary. intros H. apply negb_true_iff in H.
  apply orb_false_elim in H as (H & W).
  apply orb_false_elim in H as (Q & S).
  cbn [delete_outside_from]. rewrite Q.
  destruct t as [|d t']; rewrite ?S, W; reflexivity.
Qed.

Lemma delete_ordinary_app (piece rest : str) :
  Forall (fun c => ordinary c = true) piece ->
  delete_outside_from Outside (piece ++ rest) =
  piece ++ delete_outside_from Outside rest.
Proof.
  induction 1 as [|c piece Hc _ IH]; [reflexivity|].
  cbn [app]. rewrite (delete_ordinary c _ Hc), IH. reflexivity.
Qed.

Lemma delete_whitespace (c : char) (t : str) :
  whitespace c = true ->
  delete_outside_from Outside (c :: t) = delete_outside_from Outside t.
Proof.
  unfold whitespace. cbn [existsb]. intros H.
  destruct (N.eqb_spec c 32) as [->|]; [destruct t; reflexivity|].
  destruct (N.eqb_spec c 9) as [->|]; [destruct t; reflexivity|].
  destruct (N.eqb_spec c 13) as [->|]; [destruct t; reflexivity|].
  destruct (N.eqb_spec c 10) as [->|]; [destruct t; reflexivity|].
  discriminate H.
Qed.

Lemma delete_whitespace_app (piece rest : str) :
  Forall (fun c => whitespace c = true) piece ->
  delete_outside_from Outside (piece ++ rest) = delete_outside_from Outside rest.
Proof.
  induction 1 as [|c piece Hc _ IH]; [reflexivity|].
  cbn [app]. rewrite (delete_whitespace c _ Hc). exact IH.
Qed.

(** The characters of numbers, identifiers, operators other than the slash
    and punctuation are ordinary. *)
Ltac not_special H :=
  unfold ordinary, whitespace; cbn [existsb];
  repeat match goal with
         | |- context [N.eqb ?c ?k] =>
             destruct (N.eqb_spec c k) as [->|];
             [vm_compute in H; discriminate H|]
         end;
  reflexivity.

Lemma digit_ordinary (c : char) : digit c = true -> ordinary c = true.
Proof. intros H. not_special H. Qed.

Lemma word_ordinary (c : char) : word c = true -> ordinary c = true.
Proof. intros H. not_special H. Qed.

Lemma id_start_ordinary (c : char) : id_start c = true -> ordinary c = true.
Proof. intros H. not_special H. Qed.

Lemma digits_ordinary (t : str) :
  digits t -> Forall (fun c => ordinary c = true) t.
Proof.
  intros (_ & F). eapply Forall_impl; [|exact F]. apply digit_ordinary.
Qed.

(** A line comment is deleted up to the line feed, which is a blank. *)
Lemma delete_line_comment (t : str) :
  delete_outside_from InLineComment t =
  delete_outside_from Outside (skip_while not_LF t).
Proof.
  induction t as [|c t IH]; [reflexivity|].
  cbn [delete_outside_from skip_while]. unfold not_LF. cbn [existsb].
  destruct (N.eqb_spec c 10) as [->|]; cbn [orb negb].
  - symmetry. apply delete_whitespace. reflexivity.
  - exact IH.
Qed.

(** A block comment is deleted up to its first star and slash. *)
Lemma delete_block_comment : forall (t r : str),
  block_end t = Some r ->
  block_closes t = true /\
  delete_outside_from InBlockComment t = delete_outside_from Outside r.
Proof.
  induction t as [|c t IH]; intros r H; [discriminate|].
  destruct t as [|d t']; [discriminate|].
  cbn [block_end] in H. cbn [block_closes delete_outside_from].
  destruct ((c =? 42)%N && (d =? 47)%N).
  - injection H as <-. auto.
  - cbn [orb]. apply IH, H.
Qed.

Lemma block_end_None : forall (t : str),
  block_end t = None -> block_closes t = false.
Proof.
  induction t as [|c t IH]; intros H; [reflexivity|].
  destruct t as [|d t']; [reflexivity|].
  cbn [block_end] in H. cbn [block_closes].
  destruct ((c =? 42)%N && (d =? 47)%N); [discriminate|].
  cbn [orb]. apply IH, H.
Qed.

(** A string literal is kept up to its closing quote. *)
Lemma delete_literal : forall (n : nat) (t r : str),
  (length t <= n)%nat ->
  string_end t = Some r ->
  exists b, t = b ++ r /\
            delete_outside_from InLiteral t = b ++ delete_outside_from Outside r.
Proof.
  induction n as [|n IH]; intros t r Hn H.
  { destruct t; [discriminate|simpl in Hn; lia]. }
  destruct t as [|c t]; [discriminate|].
  cbn [length] in Hn. cbn [string_end] in H. cbn [delete_outside_from].
  destruct (c =? 34)%N.
  { injection H as <-. exists [c]. auto. }
  destruct (c =? 92)%N.
  - destruct t as [|d t']; [discriminate|].
    destruct (dot d); [|discriminate].
    cbn [length] in Hn.
    destruct (IH t' r ltac:(lia) H) as (b & -> & E).
    exists (c :: d :: b). cbn [delete_outside_from]. rewrite E. auto.
  - destruct (IH t r ltac:(lia) H) as (b & -> & E).
    exists (c :: b). rewrite E. auto.
Qed.

(** One match of the scan, on the text it is made on: the deletion drops
    the text of a NEWLINE, SKIP or COMMENT match, keeps the text of any
    other, and goes on outside comments and literals after it. *)
Lemma delete_piece name r :
  In (name, r) TOKEN_SPECIFICATION ->
  forall piece rest : str,
    lang r piece ->
    alternation TOKEN_SPECIFICATION (piece ++ rest) = Some (name, rest) ->
    name <> "MISMATCH"%string ->
    delete_outside_from Outside (piece ++ rest) =
    (if dropped name then [] else piece) ++ delete_outside_from Outside rest.
Proof.
  intros I.
  apply (TOKEN_SPECIFICATION_cases name r
           (fun name r =>
              forall piece rest : str,
                lang r piece ->
                alternation TOKEN_SPECIFICATION (piece ++ rest) = Some (name, rest) ->
                name <> "MISMATCH"%string ->
                delete_outside_from Outside (piece ++ rest) =
                (if dropped name then [] else piece) ++
                delete_outside_from Outside rest));
    [exact I|..]; clear; intros piece rest L A NM;
    try change (dropped _) with false; try change (dropped _) with true;
    cbv iota.
  - (* NUMBER *)
    apply lang_NUMBER in L as (i & f & -> & Hi & Hf).
    apply delete_ordinary_app, Forall_app. split; [apply digits_ordinary, Hi|].
    destruct Hf as [->|(g & -> & Hg)]; constructor;
      [reflexivity|apply digits_ordinary, Hg].
  - (* ID *)
    apply lang_ID in L as (c & w & -> & Hc & Hw).
    apply delete_ordinary_app. constructor; [apply id_start_ordinary, Hc|].
    eapply Forall_impl; [|exact Hw]. apply word_ordinary.
  - (* STRING *)
    apply lang_STRING in L as (body & ->).
    change ((34%N :: body ++ [34%N]) ++ rest)
      with (34%N :: (body ++ [34%N]) ++ rest) in *.
    rewrite alternation_quote in A.
    destruct (string_end ((body ++ [34%N]) ++ rest)) as [r0|] eqn:E;
      [|discriminate A].
    injection A as ->.
    destruct (delete_literal _ _ _ (le_n _) E) as (b & Eb & D).
    apply app_inv_tail in Eb. subst b.
    cbn [delete_outside_from N.eqb Pos.eqb]. rewrite D. reflexivity.
  - (* COMMENT *)
    apply lang_COMMENT in L as [(body & -> & _)|(body & ->)].
    + change ((of_string "//" ++ body) ++ rest)
        with (47%N :: 47%N :: body ++ rest) in *.
      rewrite alternation_line_comment in A. injection A as A.
      change (delete_outside_from Outside (47%N :: 47%N :: body ++ rest))
        with (delete_outside_from InLineComment (body ++ rest)).
      rewrite delete_line_comment, A. reflexivity.
    + change ((of_string "/*" ++ body ++ of_string "*/") ++ rest)
        with (47%N :: 42%N :: (body ++ of_string "*/") ++ rest) in *.
      rewrite alternation_block_comment in A.
      destruct (block_end ((body ++ of_string "*/") ++ rest)) as [r0|] eqn:E;
        [|discriminate A].
      injection A as ->.
      destruct (delete_block_comment _ _ E) as (C & D).
      change (delete_outside_from Outside
                (47%N :: 42%N :: (body ++ of_string "*/") ++ rest))
        with (if block_closes ((body ++ of_string "*/") ++ rest)
              then delete_outside_from InBlockComment
                     ((body ++ of_string "*/") ++ rest)
              else 47%N :: delete_outside_from Outside
                     (42%N :: (body ++ of_string "*/") ++ rest)).
      rewrite C. exact D.
  - (* NEWLINE *)
    apply lang_NEWLINE in L. subst piece. apply delete_whitespace. reflexivity.
  - (* SKIP *)
    apply delete_whitespace_app, lang_SKIP, L.
  - (* OP *)
    apply lang_OP in L as [L|(c & -> & L)].
    { apply delete_ordinary_app. simpl in L.
      repeat (destruct L as [<-|L]; [repeat constructor|]). destruct L. }
    simpl in L.
    destruct L as [<-|[<-|[<-|[L|L]]]];
      try (apply delete_ordinary; reflexivity).
    2:{ repeat (destruct L as [<-|L]; [apply delete_ordinary; reflexivity|]).
        destruct L. }
    subst c. cbn [app] in *.
    destruct rest as [|d rest']; [reflexivity|].
    destruct (N.eqb_spec d 47) as [->|N47].
    { rewrite alternation_line_comment in A. discriminate A. }
    destruct (N.eqb_spec d 42) as [->|N42].
    + rewrite alternation_block_comment in A.
      destruct (block_end rest') eqn:E; [discriminate A|].
      apply block_end_None in E.
      change (delete_outside_from Outside (47%N :: 42%N :: rest'))
        with (if block_closes rest'
              then delete_outside_from InBlockComment rest'
              else 47%N :: delete_outside_from Outside (42%N :: rest')).
      rewrite E. reflexivity.
    + apply N.eqb_neq in N47, N42.
      change (delete_outside_from Outside (47%N :: d :: rest'))
        with (if (d =? 47)%N then delete_outside_from InLineComment rest'
              else if (d =? 42)%N && block_closes rest'
                   then delete_outside_from InBlockComment rest'
                   else 47%N :: delete_outside_from Outside (d :: rest')).
      rewrite N47, N42. reflexivity.
  - (* PUNCT *)
    apply lang_PUNCT in L as (c & -> & L). simpl in L.
    repeat (destruct L as [<-|L]; [apply delete_ordinary; reflexivity|]).
    destruct L.
  - (* MISMATCH *)
    exfalso. apply NM. reflexivity.
Qed.

Lemma MASTER_PATTERN_match_alternation code pos mo :
  0 <= pos <= Z.of_nat (length code) ->
  MASTER_PATTERN_match code pos = Some mo ->
  alternation TOKEN_SPECIFICATION (skipn (Z.to_nat pos) code) =
  Some (lastgroup mo, skipn (Z.to_nat (m_end mo)) code).
Proof.
  intros Hpos M. unfold MASTER_PATTERN_match in M.
  destruct (alternation _ _) as [[name rest]|] eqn:E; [|discriminate].
  destruct (alternation_TOKEN_SPECIFICATION _ _ _ E) as (r & t & _ & _ & _ & Es).
  destruct (skipn_split code _ t rest Hpos Es) as (_ & _ & Hr).
  injection M as <-. cbn [lastgroup m_end]. rewrite Hr. reflexivity.
Qed.

Lemma meaningful_cons code it its :
  meaningful code (it :: its) =
  (if dropped (it_kind it) then [] else it_text code it) ++ meaningful code its.
Proof.
  unfold meaningful. cbn [filter].
  destruct (dropped (it_kind it)); reflexivity.
Qed.

(** The texts the loop keeps from a cursor on are what the deletion leaves
    of the input from there. *)
Lemma iterations_loop_delete fuel code : forall l ls p,
  0 <= p <= Z.of_nat (length code) ->
  let its := iterations_loop fuel code l ls p in
  Forall not_mismatch its ->
  meaningful code its ++
  delete_outside_from Outside (skipn (Z.to_nat (end_after p its)) code) =
  delete_outside_from Outside (skipn (Z.to_nat p) code).
Proof.
  induction fuel as [|fuel IH]; intros l ls p Hp; cbv zeta; [reflexivity|].
  rewrite iterations_loop_step.
  destruct (MASTER_PATTERN_match code p) as [mo|] eqn:M; [|reflexivity].
  pose proof (MASTER_PATTERN_match_bounds code p mo Hp M) as B.
  pose proof (MASTER_PATTERN_match_alternation code p mo Hp M) as A.
  destruct (MASTER_PATTERN_match_Some code p mo Hp M) as (r & I & L & _ & _ & _ & S).
  intros F. inversion F as [|? ? NM F']; subst. unfold not_mismatch in NM.
  change (it_kind (Iter l ls mo)) with (lastgroup mo) in NM.
  rewrite meaningful_cons, end_after_cons.
  change (it_kind (Iter l ls mo)) with (lastgroup mo).
  change (it_text code (Iter l ls mo)) with (group code mo).
  cbn [it_match m_end].
  rewrite S in A. rewrite S, (delete_piece _ r I _ _ L A NM), <- app_assoc.
  f_equal.
  assert (Hp' : 0 <= m_end mo <= Z.of_nat (length code)) by lia.
  apply String.eqb_neq in NM. rewrite NM in F' |- *.
  destruct (lastgroup mo =? "NEWLINE")%string; apply IH; assumption.
Qed.

(** Without a double quote there is no literal, and the deletion is the one
    that knows of none. *)
Lemma delete_outside_no_quote : forall (n : nat) (s : str),
  (length s <= n)%nat -> ~ In 34%N s ->
  delete_outside_from Outside s = delete_from Plain s /\
  delete_outside_from InLineComment s = delete_from LineComment s /\
  delete_outside_from InBlockComment s = delete_from BlockComment s.
Proof.
  induction n as [|n IH]; intros s Hn Q.
  { destruct s; [auto|simpl in Hn; lia]. }
  destruct s as [|c t]; [auto|].
  cbn [length] in Hn.
  assert (Qc : (c =? 34)%N = false)
    by (apply N.eqb_neq; intros ->; apply Q; left; reflexivity).
  assert (Qt : ~ In 34%N t) by (intros H; apply Q; right; exact H).
  destruct (IH t ltac:(lia) Qt) as (T1 & T2 & T3).
  cbn [delete_outside_from delete_from]. rewrite Qc, T1, T2.
  destruct t as [|d t']; [auto|].
  cbn [length] in Hn.
  assert (Qt' : ~ In 34%N t') by (intros H; apply Qt; right; exact H).
  destruct (IH t' ltac:(lia) Qt') as (S1 & S2 & S3).
  rewrite S1, S2, S3, T3. auto.
Qed.

End Deletion.

(** * The specification's claims *)

Section Claims.
Context {U : Unicode}.
Local Open Scope Z_scope.

(** C1, as amended: when the scan completes without error, the texts of the
    tokens before EOF, in order, are the input with the comments and, outside
    the string literals, every space, tab, carriage return and line feed
    deleted, each string literal being kept whole.  On an input that holds no
    double quote this is the input with all whitespace and comment text
    deleted. *)
Theorem texts_roundtrip code :
  snd (tokenize code) = StopIteration ->
  exists toks l c,
    fst (tokenize code) = toks ++ [Tok "EOF" [] l c] /\
    texts toks = delete_outside_literals code /\
    (~ In 34%N code -> texts toks = delete_whitespace_and_comments code).
Proof.
  intros St. pose proof (tokenize_trace code) as T. cbv zeta in T.
  rewrite St in T. destruct T as (T & F & _).
  destruct (length_fuel code) as (H0 & _).
  pose proof (stop_at_end (S (length code)) code 1 0 0 H0 St) as E.
  pose proof (iterations_loop_delete (S (length code)) code 1 0 0 H0 F) as D.
  rewrite E, Nat2Z.id, skipn_all, app_nil_r in D.
  assert (R : texts (flat_map (emit code) (iterations code)) =
              delete_outside_literals code).
  { rewrite texts_flat_map_emit; [exact D| |exact F].
    eapply Forall_impl; [|apply iterations_lang].
    intros it (r & I & _). eauto. }
  do 3 eexists. split; [exact T|]. split; [exact R|].
  intros Q. rewrite R.
  apply (delete_outside_no_quote (length code) code (le_n _) Q).
Qed.

(** C2, on the code: a line feed inside a block comment leaves the cursor's
    line and line start as they were.  In the six characters slash, star,
    line feed, star, slash, x the identifier x stands on the second line, in
    its third column; the scan reports it at line 1, column 6, and EOF at
    line 1, column 7. *)
Theorem comment_line_feed_not_counted :
  In 10%N (firstn 5 comment_over_lines) /\
  tokenize comment_over_lines =
    ([Tok "IDENT" (of_string "x") 1 6; Tok "EOF" [] 1 7], StopIteration).
Proof. split; [simpl; tauto|reflexivity]. Qed.

(** C3: on an input where no match of the scan is a MISMATCH, the scan
    terminates (whatever fuel the loop is given beyond the length of the
    input), it is exhausted without raising, and the last token it yields is
    EOF with the empty text. *)
Theorem scan_ends_with_EOF code :
  Forall not_mismatch (iterations code) ->
  exists toks l c,
    tokenize code = (toks ++ [Tok "EOF" [] l c], StopIteration) /\
    forall fuel, (length code < fuel)%nat ->
                 tokenize_loop fuel code 1 0 0 = tokenize code.
Proof.
  intros F. pose proof (tokenize_trace code) as T. cbv zeta in T.
  destruct (tokenize code) as [toks e] eqn:E. simpl in T.
  destruct e as [|e|]; [| |contradiction].
  - destruct T as (-> & _). do 3 eexists. split; [reflexivity|].
    intros fuel Hf. rewrite <- E. apply tokenize_more_fuel, Hf.
  - destruct T as (pre & it & Eits & _ & K & _). exfalso.
    rewrite Eits in F. apply Forall_app in F as (_ & F).
    inversion F as [|? ? NM _]. apply NM, K.
Qed.

(** C4: a run ends in one of two ways.  Either it is exhausted, and then no
    match of the scan was a MISMATCH; or it raises, and then the last match
    of the scan is its only MISMATCH, the error carries the one character
    matched, the line and the column of the cursor there, and the tokens of
    the run are those yielded before that match, with no EOF.  On the input
    @ the run raises for the character @ at line 1, column 1, having yielded
    nothing. *)
Theorem raises_exactly_on_MISMATCH code :
  match snd (tokenize code) with
  | StopIteration => Forall not_mismatch (iterations code)
  | Raise e =>
      exists pre it c,
        iterations code = pre ++ [it] /\
        Forall not_mismatch pre /\ it_kind it = "MISMATCH"%string /\
        it_text code it = [c] /\
        e = Unexpected [c] (1 + newlines pre)
              (m_start (it_match it) - line_start_after 0 pre + 1) /\
        fst (tokenize code) = flat_map (emit code) pre /\
        Forall (fun t => type t <> "EOF"%string) (fst (tokenize code))
  | OutOfFuel => False
  end /\
  tokenize (of_string "@") = ([], Raise (Unexpected (of_string "@") 1 1)).
Proof.
  split; [|reflexivity].
  pose proof (tokenize_trace code) as T. cbv zeta in T.
  pose proof (tokenize_In code) as TI.
  destruct (snd (tokenize code)) as [|e|]; [tauto| |exact T].
  destruct T as (pre & it & E & F & K & -> & Toks).
  pose proof (iterations_lang code) as L. rewrite E in L.
  apply Forall_app in L as (_ & L). inversion L as [|? ? (r & I & Lr & _) _]; subst.
  assert (C : exists c, it_text code it = [c]).
  { revert Lr. rewrite K in I. generalize (it_text code it) as t.
    apply (TOKEN_SPECIFICATION_cases "MISMATCH" r
             (fun name r => name = "MISMATCH"%string -> forall t, lang r t ->
                            exists c, t = [c])); auto; try discriminate.
    intros _ t Lt. apply lang_Class_inv in Lt as (c & -> & _). eauto. }
  destruct C as (c & C).
  destruct (iterations_loop_cursor _ _ _ _ _ _ _ _ (proj1 (length_fuel code)) E) as (Hl & Hs & _).
  exists pre, it, c. repeat split; auto.
  - rewrite C, Hl. unfold it_column. rewrite Hs. reflexivity.
  - rewrite Forall_forall. intros t Ht. apply TI in Ht as [(it' & Hit & Ht)|(D & _)].
    + apply emit_In in Ht as (ty & -> & _ & NE & _); auto.
    + discriminate D.
Qed.

(** C5: at a position where a two-character operator starts, the OP match
    is that operator, whatever follows it.  The input made of a minus sign
    and a greater-than sign yields one OP token with that text and then EOF,
    and so does the input made of two equals signs. *)
Theorem two_character_operators_first :
  (forall op rest,
      In op ["=="; "!="; "<="; ">="; "++"; "--"; "->"]%string ->
      alternation TOKEN_SPECIFICATION (of_string op ++ rest) =
        Some ("OP"%string, rest)) /\
  tokenize (of_string "->") =
    ([Tok "OP" (of_string "->") 1 1; Tok "EOF" [] 1 3], StopIteration) /\
  tokenize (of_string "==") =
    ([Tok "OP" (of_string "==") 1 1; Tok "EOF" [] 1 3], StopIteration).
Proof.
  split; [|split; reflexivity].
  intros op rest H. simpl in H.
  repeat (destruct H as [<-|H]; [reflexivity|]). destruct H.
Qed.

(** C6: an ID match yields one token, with the matched text, of kind KEYWORD
    when that text is in the keyword set and of kind IDENT when it is not;
    the token is among those of the run.  Conversely a KEYWORD token of a
    run has its text in the keyword set and an IDENT token has not.  The
    input int x yields KEYWORD int, IDENT x, EOF. *)
Theorem keyword_iff_in_KEYWORDS code :
  Forall (fun it =>
            it_kind it = "ID"%string ->
            let v := it_text code it in
            let t := Tok (if in_KEYWORDS v then "KEYWORD" else "IDENT")
                         v (it_line it) (it_column it) in
            emit code it = [t] /\ In t (fst (tokenize code)) /\
            (type t = "KEYWORD"%string <-> In v KEYWORDS) /\
            (type t = "IDENT"%string <-> ~ In v KEYWORDS))
         (iterations code) /\
  Forall (fun t =>
            (type t = "KEYWORD"%string -> In (value t) KEYWORDS) /\
            (type t = "IDENT"%string -> ~ In (value t) KEYWORDS))
         (fst (tokenize code)) /\
  tokenize (of_string "int x") =
    ([Tok "KEYWORD" (of_string "int") 1 1; Tok "IDENT" (of_string "x") 1 5;
      Tok "EOF" [] 1 6], StopIteration).
Proof.
  split; [|split; [|reflexivity]].
  - rewrite Forall_forall. intros it Hit K. cbv zeta.
    assert (E : emit code it =
                [Tok (if in_KEYWORDS (it_text code it) then "KEYWORD" else "IDENT")
                     (it_text code it) (it_line it) (it_column it)]).
    { unfold emit. rewrite K. reflexivity. }
    split; [exact E|]. split.
    + pose proof (tokenize_trace code) as T. cbv zeta in T.
      destruct (snd (tokenize code)) as [|e|]; [| |contradiction].
      * destruct T as (-> & _). apply in_or_app. left.
        apply in_flat_map. exists it. rewrite E. simpl. auto.
      * destruct T as (pre & it' & Eits & _ & K' & _ & ->).
        apply in_flat_map. exists it. rewrite E. split; [|simpl; auto].
        rewrite Eits in Hit. apply in_app_or in Hit as [Hit|[<-|[]]]; auto.
        rewrite K in K'. discriminate K'.
    + cbn [type]. rewrite <- in_KEYWORDS_In.
      destruct (in_KEYWORDS (it_text code it)); split; split;
        congruence || discriminate || auto.
  - rewrite Forall_forall. intros t Ht.
    apply tokenize_In in Ht as [(it & Hit & Ht)|(_ & Ty & _)].
    2:{ rewrite Ty. split; discriminate. }
    apply emit_In in Ht as (ty & -> & _ & _ & C); auto. cbn [type value].
    rewrite <- in_KEYWORDS_In.
    destruct C as [(I & _)|(_ & ->)].
    + simpl in I. split; intros ->; repeat (destruct I as [I|I]; try discriminate I);
        destruct I.
    + destruct (in_KEYWORDS (it_text code it)); split; congruence || discriminate.
Qed.

(** C7: an iteration of the scan is met with the line 1 plus the number of
    NEWLINE matches before it and with the line start at the end of the last
    of them (0 when there is none), at or before the start of its match; a
    token it yields carries that line and the column match start minus line
    start plus 1, both at least 1.  Every token of a run but EOF is yielded
    by such an iteration, and EOF carries the line and column of the final
    cursor.  On x, line feed, two spaces, y the run yields IDENT x at line 1,
    column 1 and IDENT y at line 2, column 3. *)
Theorem token_line_and_column code :
  (forall pre it post,
      iterations code = pre ++ it :: post ->
      it_line it = 1 + newlines pre /\
      it_line_start it = line_start_after 0 pre /\
      it_line_start it <= m_start (it_match it) /\
      Forall (fun t => line t = it_line it /\
                       column t = m_start (it_match it) - it_line_start it + 1 /\
                       1 <= line t /\ 1 <= column t)
             (emit code it)) /\
  (forall t, In t (fst (tokenize code)) -> type t <> "EOF"%string ->
             exists it, In it (iterations code) /\ In t (emit code it)) /\
  (snd (tokenize code) = StopIteration ->
   exists toks,
     fst (tokenize code) =
       toks ++ [Tok "EOF" [] (1 + newlines (iterations code))
                    (Z.of_nat (length code) -
                     line_start_after 0 (iterations code) + 1)]) /\
  tokenize two_lines =
    ([Tok "IDENT" (of_string "x") 1 1; Tok "IDENT" (of_string "y") 2 3;
      Tok "EOF" [] 2 4], StopIteration).
Proof.
  split; [|split; [|split; [|reflexivity]]].
  - intros pre it post E.
    destruct (iterations_loop_cursor _ _ _ _ _ _ _ _ (proj1 (length_fuel code)) E) as (Hl & Hs & _).
    assert (Hit : In it (iterations code)).
    { unfold iterations in *. rewrite E. apply in_or_app. simpl. auto. }
    destruct (length_fuel code) as (H0 & _).
    pose proof (iterations_loop_line_start (S (length code)) code 1 0 0 H0 (Z.le_refl 0)) as F.
    rewrite Forall_forall in F. destruct (F it Hit) as (F1 & F2).
    repeat split; auto.
    rewrite Forall_forall. intros t Ht.
    apply emit_In in Ht as (ty & -> & _); auto. simpl.
    unfold it_column. repeat split; lia.
  - intros t Ht NE. apply tokenize_In in Ht as [H|(_ & Ty & _)]; [exact H|].
    contradiction.
  - intros S. pose proof (tokenize_trace code) as T. cbv zeta in T.
    rewrite S in T. destruct T as (T & _). eexists. exact T.
Qed.

(** C8: a STRING match yields one STRING token whose text is the slice of
    the input from the start to the end of the match, as it stands: it
    opens and closes with the double quote and nothing in it is rewritten.
    Every STRING token of a run is such a slice.  On the six characters
    quote, a, backslash, quote, b, quote the run yields one STRING token
    whose text is the whole input, then EOF. *)
Theorem string_text_verbatim code :
  Forall (fun it =>
            it_kind it = "STRING"%string ->
            let raw := slice code (m_start (it_match it)) (m_end (it_match it)) in
            let t := Tok "STRING" raw (it_line it) (it_column it) in
            emit code it = [t] /\ In t (fst (tokenize code)) /\
            exists body, raw = 34%N :: body ++ [34%N])
         (iterations code) /\
  Forall (fun t =>
            type t = "STRING"%string ->
            exists it, In it (iterations code) /\ it_kind it = "STRING"%string /\
                       value t = slice code (m_start (it_match it))
                                       (m_end (it_match it)))
         (fst (tokenize code)) /\
  tokenize escaped_quote =
    ([Tok "STRING" escaped_quote 1 1; Tok "EOF" [] 1 7], StopIteration).
Proof.
  split; [|split; [|reflexivity]].
  - pose proof (iterations_lang code) as L. rewrite Forall_forall in *.
    intros it Hit K. cbv zeta.
    assert (E : emit code it =
                [Tok "STRING" (slice code (m_start (it_match it)) (m_end (it_match it)))
                     (it_line it) (it_column it)]).
    { unfold emit. rewrite K. reflexivity. }
    split; [exact E|]. split.
    + apply (emit_in_tokens code it); auto. rewrite E. simpl. auto.
    + destruct (L it Hit) as (r & I & Lr & _). revert Lr.
      change (slice code (m_start (it_match it)) (m_end (it_match it)))
        with (it_text code it).
      generalize (it_text code it) as t. rewrite K in I.
      apply (TOKEN_SPECIFICATION_cases "STRING" r
               (fun name r => name = "STRING"%string -> forall t, lang r t ->
                              exists body, t = 34%N :: body ++ [34%N]));
        auto; try discriminate.
      intros _ t Lt. apply lang_STRING, Lt.
  - rewrite Forall_forall. intros t Ht Ty.
    apply tokenize_In in Ht as [(it & Hit & Ht)|(_ & Ty' & _)].
    2:{ rewrite Ty in Ty'. discriminate Ty'. }
    apply emit_In in Ht as (ty & -> & _ & _ & C); auto. simpl in Ty. subst ty.
    exists it. split; auto.
    destruct C as [(_ & K)|(_ & K)]; [auto|].
    destruct (in_KEYWORDS (it_text code it)); discriminate K.
Qed.

(** C9: the tokens of a run are tokens with a non-empty text, none of them
    EOF, followed, when the run is exhausted and only then, by one EOF token
    whose text is empty. *)
Theorem text_empty_only_in_EOF code :
  exists toks,
    Forall (fun t => type t <> "EOF"%string /\ value t <> []) toks /\
    match snd (tokenize code) with
    | StopIteration => exists l c, fst (tokenize code) = toks ++ [Tok "EOF" [] l c]
    | _ => fst (tokenize code) = toks
    end.
Proof.
  pose proof (tokenize_trace code) as T. cbv zeta in T.
  assert (F : forall its, incl its (iterations code) ->
              Forall (fun t => type t <> "EOF"%string /\ value t <> [])
                     (flat_map (emit code) its)).
  { intros its Hi. rewrite Forall_forall. intros t Ht.
    apply in_flat_map in Ht as (it & Hit & Ht).
    apply emit_In in Ht as (ty & -> & Ne & NE & _); auto. }
  destruct (snd (tokenize code)) as [|e|]; [| |contradiction].
  - destruct T as (T & _). exists (flat_map (emit code) (iterations code)).
    split; [apply F, incl_refl|]. eauto.
  - destruct T as (pre & it & E & _ & _ & _ & T). exists (flat_map (emit code) pre).
    split; [|exact T]. apply F. rewrite E. apply incl_appl, incl_refl.
Qed.

(** C10, as amended: when the scan comes to a double quote, that is when one
    of its matches starts at it, and the text after the quote has no closing
    double quote that no backslash escapes, that match is the MISMATCH of
    the quote alone and the last of the scan: the run raises for the
    character double quote with the line and the column of that position,
    and its tokens are those yielded before it.  A double quote inside a
    comment, or after an earlier error, is not come to. *)
Theorem unclosed_quote_raises code pre it post (rest : str) :
  iterations code = pre ++ it :: post ->
  skipn (Z.to_nat (m_start (it_match it))) code = 34%N :: rest ->
  closing_quote rest = false ->
  post = [] /\ it_kind it = "MISMATCH"%string /\ it_text code it = [34%N] /\
  tokenize code =
    (flat_map (emit code) pre,
     Raise (Unexpected [34%N] (1 + newlines pre)
              (m_start (it_match it) - line_start_after 0 pre + 1))).
Proof.
  intros E Hs Hc.
  assert (Hit : In it (iterations code)).
  { rewrite E. apply in_or_app. simpl. auto. }
  destruct (length_fuel code) as (H0 & _).
  pose proof (iterations_loop_matches (S (length code)) code 1 0 0 H0) as F.
  rewrite Forall_forall in F. destruct (F it Hit) as (B & M).
  assert (K : it_kind it = "MISMATCH"%string /\ it_text code it = [34%N]).
  { unfold MASTER_PATTERN_match in M.
    rewrite Hs, (alternation_unclosed rest Hc) in M.
    assert (L : length (skipn (Z.to_nat (m_start (it_match it))) code)
                = S (length rest)) by (rewrite Hs; reflexivity).
    rewrite length_skipn in L.
    unfold it_kind, it_text, group, slice.
    destruct (it_match it) as [k st en]. cbn [m_start m_end lastgroup] in *.
    injection M as <- _ <-. split; [reflexivity|].
    rewrite Hs.
    assert (Z.to_nat (Z.of_nat (length code) - Z.of_nat (length rest) - st)
            = 1%nat) as -> by lia.
    reflexivity. }
  destruct K as (K & Tx).
  destruct (iterations_loop_cursor _ _ _ _ _ _ _ _ H0 E) as (Hl & Hls & _).
  pose proof (tokenize_trace code) as T. cbv zeta in T.
  destruct (tokenize code) as [toks e]. simpl in T.
  destruct e as [|e|]; [| |contradiction].
  - destruct T as (_ & NM & _). rewrite Forall_forall in NM.
    exfalso. apply (NM it Hit), K.
  - destruct T as (pre' & it' & Eits & NM & _ & -> & ->).
    rewrite E in Eits.
    destruct (last_is_the_mismatch not_mismatch _ _ _ _ _ Eits NM) as (-> & -> & <-).
    { intros N. apply N, K. }
    repeat split; auto.
    rewrite Tx, Hl. unfold it_column. rewrite Hls. reflexivity.
Qed.

End Claims.

(** ** The claims at sample inputs *)

Lemma texts_roundtrip_witness :
  snd (tokenize (U:=basic_latin) comment_over_lines) = StopIteration /\
  exists toks l c,
    fst (tokenize (U:=basic_latin) comment_over_lines) = toks ++ [Tok "EOF" [] l c] /\
    texts toks = delete_outside_literals comment_over_lines /\
    (~ In 34%N comment_over_lines ->
     texts toks = delete_whitespace_and_comments comment_over_lines).
Proof.
  split; [reflexivity|].
  apply (texts_roundtrip (U:=basic_latin) comment_over_lines). reflexivity.
Defined.

(** The round trip as the claim words it fails on a string literal that
    holds a blank: the literal is one STRING token, blank included, while
    deleting all whitespace from the input takes the blank away. *)
Lemma roundtrip_fails_in_literal :
  exists toks,
    (forall U : Unicode,
        tokenize quoted_blank = (toks ++ [Tok "EOF" [] 1 6], StopIteration)) /\
    texts toks = quoted_blank /\
    delete_whitespace_and_comments quoted_blank = [34; 97; 98; 34]%N /\
    texts toks <> delete_whitespace_and_comments quoted_blank.
Proof.
  exists [Tok "STRING" quoted_blank 1 1].
  split; [intros U; reflexivity|].
  split; [reflexivity|]. split; [reflexivity|]. discriminate.
Qed.

Lemma scan_ends_with_EOF_witness :
  Forall not_mismatch (iterations (U:=basic_latin) two_lines) /\
  exists toks l c,
    tokenize (U:=basic_latin) two_lines = (toks ++ [Tok "EOF" [] l c], StopIteration) /\
    forall fuel, (length two_lines < fuel)%nat ->
                 tokenize_loop (U:=basic_latin) fuel two_lines 1 0 0 =
                 tokenize (U:=basic_latin) two_lines.
Proof.
  assert (F : Forall not_mismatch (iterations (U:=basic_latin) two_lines))
    by (repeat constructor; discriminate).
  split; [exact F|].
  exact (scan_ends_with_EOF (U:=basic_latin) two_lines F).
Defined.

(** A double quote that closes nothing, inside a comment: the scan never
    comes to it and the run is exhausted without raising. *)
Lemma quote_in_comment_is_skipped :
  nth_error quote_in_comment 2 = Some 34%N /\
  closing_quote (skipn 3 quote_in_comment) = false /\
  forall U : Unicode,
    tokenize quote_in_comment = ([Tok "EOF" [] 1 4], StopIteration).
Proof. repeat split. Qed.

Lemma unclosed_quote_raises_witness :
  let U := basic_latin in
  let pre := [Iter 1 0 {| lastgroup := "ID"; m_start := 0; m_end := 1 |};
              Iter 1 0 {| lastgroup := "SKIP"; m_start := 1; m_end := 2 |}] in
  let it := Iter 1 0 {| lastgroup := "MISMATCH"; m_start := 2; m_end := 3 |} in
  (iterations unclosed_literal = pre ++ [it] /\
   skipn 2 unclosed_literal = 34%N :: of_string "ab" /\
   closing_quote (of_string "ab") = false) /\
  ([] = @nil iteration /\ it_kind it = "MISMATCH"%string /\
   it_text unclosed_literal it = [34%N] /\
   tokenize unclosed_literal =
     (flat_map (emit unclosed_literal) pre,
      Raise (Unexpected [34%N] (1 + newlines pre)
               (m_start (it_match it) - line_start_after 0 pre + 1)))).
Proof.
  split; [repeat split|].
  apply (unclosed_quote_raises (U:=basic_latin) unclosed_literal _ _ []
           (of_string "ab")); reflexivity.
Defined.

(** * Further properties of the scanner *)


Section Reading.
Context {U : Unicode}.
Local Open Scope Z_scope.

Lemma alternation_ID_inv (c : char) (s rest : str) :
  alternation TOKEN_SPECIFICATION (c :: s) = Some ("ID"%string, rest) ->
  id_start c = true /\ rest = skip_while word s.
Proof.
  rewrite alternation_unfold. cbv zeta. rewrite run_NUMBER, run_ID.
  destruct (digit c); [discriminate|].
  destruct (id_start c); [intros H; injection H as <-; auto|].
  repeat match goal with
         | |- match ?r with Some _ => _ | None => _ end = _ -> _ =>
             destruct r; [discriminate|]
         end.
  discriminate.
Qed.

Lemma alternation_NUMBER_inv (c : char) (s rest : str) :
  alternation TOKEN_SPECIFICATION (c :: s) = Some ("NUMBER"%string, rest) ->
  digit c = true /\ rest = number_rest s.
Proof.
  rewrite alternation_unfold. cbv zeta. rewrite run_NUMBER.
  destruct (digit c); [intros H; injection H as <-; auto|].
  repeat match goal with
         | |- match ?r with Some _ => _ | None => _ end = _ -> _ =>
             destruct r; [discriminate|]
         end.
  discriminate.
Qed.

(** X1: an identifier is read to the end of its word.  At a letter or an
    underscore the match is ID and takes the longest run of word characters
    after it; in any scan an ID match starts at a letter or an underscore and
    the text left after it is empty or starts with a character that is not a
    word character.  Nothing is said of the character before the match: a
    digit there ends a NUMBER. *)
Theorem identifier_reads_whole_word code :
  Forall (fun it =>
            it_kind it = "ID"%string ->
            exists c s,
              skipn (Z.to_nat (m_start (it_match it))) code = c :: s /\
              id_start c = true /\
              skipn (Z.to_nat (m_end (it_match it))) code = skip_while word s /\
              match skipn (Z.to_nat (m_end (it_match it))) code with
              | d :: _ => word d = false
              | [] => True
              end)
         (iterations code) /\
  forall (c : char) (s : str),
    id_start c = true ->
    alternation TOKEN_SPECIFICATION (c :: s) = Some ("ID"%string, skip_while word s).
Proof.
  split; [|apply alternation_id_start].
  rewrite Forall_forall. intros it Hit K.
  destruct (iteration_alternation code it Hit) as (c & s & Sk & A).
  rewrite K in A. apply alternation_ID_inv in A as (I & R).
  exists c, s. repeat split; auto.
  rewrite R. apply skip_while_stops.
Qed.

(** X2: a number is read as its digits and, when a dot with a digit after
    it follows, that dot and the digits after it; a dot that no digit
    follows is left for the next match.  In any scan the text left after a
    NUMBER match is empty or starts with a character that is not a digit. *)
Theorem number_reads_digits_and_fraction code :
  Forall (fun it =>
            it_kind it = "NUMBER"%string ->
            exists c s,
              skipn (Z.to_nat (m_start (it_match it))) code = c :: s /\
              digit c = true /\
              skipn (Z.to_nat (m_end (it_match it))) code = number_rest s /\
              match skipn (Z.to_nat (m_end (it_match it))) code with
              | d :: _ => digit d = false
              | [] => True
              end)
         (iterations code) /\
  forall (c : char) (s : str),
    digit c = true ->
    alternation TOKEN_SPECIFICATION (c :: s) = Some ("NUMBER"%string, number_rest s).
Proof.
  split; [|apply alternation_digit].
  rewrite Forall_forall. intros it Hit K.
  destruct (iteration_alternation code it Hit) as (c & s & Sk & A).
  rewrite K in A. apply alternation_NUMBER_inv in A as (I & R).
  exists c, s. repeat split; auto.
  rewrite R. apply number_rest_stops.
Qed.

(** X3: at a double quote the match is the string literal up to the first
    double quote that no backslash escapes, a backslash taking the next
    character with it unless that is a line feed; when there is no such
    literal the match is the MISMATCH of the opening quote alone.  A literal
    may run over line feeds. *)
Theorem string_reads_to_closing_quote (s : str) :
  alternation TOKEN_SPECIFICATION (34%N :: s) =
  match string_end s with
  | Some r => Some ("STRING"%string, r)
  | None => Some ("MISMATCH"%string, s)
  end.
Proof. apply alternation_quote. Qed.

(** X4: two slashes start a comment that takes everything up to the next
    line feed, or to the end of the input, and leaves the line feed. *)
Theorem line_comment_reads_to_line_end (s : str) :
  alternation TOKEN_SPECIFICATION (of_string "//" ++ s) =
    Some ("COMMENT"%string, skip_while not_LF s) /\
  match skip_while not_LF s with
  | d :: _ => d = 10%N
  | [] => True
  end.
Proof.
  split; [apply alternation_line_comment|].
  pose proof (skip_while_stops not_LF s) as H.
  destruct (skip_while not_LF s) as [|d t]; auto.
  unfold not_LF in H. cbn [existsb] in H.
  destruct (N.eqb_spec d 10); [assumption|discriminate].
Qed.

(** X5: a slash and a star start a comment that ends with the first star
    followed by a slash.  When no such pair follows, there is no comment
    and no error: the slash alone is matched as an operator. *)
Theorem block_comment_reads_to_first_close (s : str) :
  alternation TOKEN_SPECIFICATION (of_string "/*" ++ s) =
  match block_end s with
  | Some r => Some ("COMMENT"%string, r)
  | None => Some ("OP"%string, 42%N :: s)
  end.
Proof. apply alternation_block_comment. Qed.

(** X6: blanks are read as one run: at a space, a tab or a carriage return
    the match is SKIP and takes every blank that follows. *)
Theorem blanks_read_as_one_run (c : char) (s : str) :
  blank c = true ->
  alternation TOKEN_SPECIFICATION (c :: s) = Some ("SKIP"%string, skip_while blank s) /\
  match skip_while blank s with
  | d :: _ => blank d = false
  | [] => True
  end.
Proof.
  intros H. split; [apply alternation_blank, H|apply skip_while_stops].
Qed.

(** X7: the match at the cursor is MISMATCH exactly when the character
    there is not a digit, a letter, an underscore, a blank, a line feed, an
    operator or a punctuation character, and, if it is a double quote, no
    string literal starts at it. *)
Theorem mismatch_exactly_at_stray_character (c : char) (s : str) :
  (exists rest,
      alternation TOKEN_SPECIFICATION (c :: s) = Some ("MISMATCH"%string, rest)) <->
  plain_char c = false /\ ((c =? 34)%N = true -> string_end s = None).
Proof.
  split.
  - intros (rest & A). destruct (plain_char c) eqn:P.
    { exfalso. apply (alternation_plain c s rest P), A. }
    split; [reflexivity|]. intros Q. apply N.eqb_eq in Q. subst c.
    rewrite alternation_quote in A.
    destruct (string_end s); [discriminate A|reflexivity].
  - intros (P & Q). destruct (c =? 34)%N eqn:E.
    + apply N.eqb_eq in E. subst c. exists s.
      rewrite alternation_quote, (Q eq_refl). reflexivity.
    + exists s. apply alternation_stray; assumption.
Qed.

End Reading.

(** ** What the tokens of a run look like *)

Section Tokens.
Context {U : Unicode}.
Local Open Scope Z_scope.

(** The shape of every token of a run. *)
Lemma tokenize_shapes code : Forall token_shape (fst (tokenize code)).
Proof.
  rewrite Forall_forall. intros t Ht. unfold token_shape. cbv zeta.
  apply tokenize_In in Ht as [(it & Hit & Ht)|(_ & Ty & V)].
  2:{ do 6 right. auto. }
  pose proof (iterations_lang code) as L. rewrite Forall_forall in L.
  destruct (L it Hit) as (r & I & Lr & _).
  apply emit_In in Ht as (ty & -> & _ & _ & C); auto. cbn [type value].
  revert Lr I C. generalize (it_text code it) as v. intros v Lr I C.
  destruct C as [(M & ->)|(K & ->)].
  - simpl in M.
    destruct M as [M|[M|[M|[M|[]]]]]; rewrite <- M in *; revert v Lr.
    + apply (TOKEN_SPECIFICATION_cases "NUMBER" r
               (fun name r => name = "NUMBER"%string -> forall v, lang r v -> _));
        auto; try discriminate.
      intros _ v Lv. right. right. left. split; [reflexivity|apply lang_NUMBER, Lv].
    + apply (TOKEN_SPECIFICATION_cases "STRING" r
               (fun name r => name = "STRING"%string -> forall v, lang r v -> _));
        auto; try discriminate.
      intros _ v Lv. do 3 right. left.
      split; [reflexivity|apply lang_STRING_closed, Lv].
    + apply (TOKEN_SPECIFICATION_cases "OP" r
               (fun name r => name = "OP"%string -> forall v, lang r v -> _));
        auto; try discriminate.
      intros _ v Lv. do 4 right. left. split; [reflexivity|apply lang_OP, Lv].
    + apply (TOKEN_SPECIFICATION_cases "PUNCT" r
               (fun name r => name = "PUNCT"%string -> forall v, lang r v -> _));
        auto; try discriminate.
      intros _ v Lv. do 5 right. left. split; [reflexivity|apply lang_PUNCT, Lv].
  - rewrite K in I. revert v Lr.
    apply (TOKEN_SPECIFICATION_cases "ID" r
             (fun name r => name = "ID"%string -> forall v, lang r v -> _));
      auto; try discriminate.
    intros _ v Lv. destruct (in_KEYWORDS v) eqn:E.
    + left. split; [reflexivity|apply in_KEYWORDS_In, E].
    + right. left. split; [reflexivity|]. split; [|apply lang_ID, Lv].
      intros In'. apply in_KEYWORDS_In in In'. congruence.
Qed.

(** X8: every token of a run has one of the seven kinds KEYWORD, IDENT,
    NUMBER, STRING, OP, PUNCT, EOF, never a category name of the table such
    as COMMENT or SKIP, and its text has the shape of its kind: an operator
    is one of the sixteen operators, a punctuation token is one punctuation
    character, a number is digits with at most one dot that has digits on
    both sides, an identifier is a letter or underscore followed by word
    characters, a string opens with a double quote and closes with the
    first double quote after it that no backslash escapes. *)
Theorem tokens_have_the_shape_of_their_kind code :
  Forall token_shape (fst (tokenize code)).
Proof. apply tokenize_shapes. Qed.

End Tokens.

(** ** Order and size of a run *)

Section Order.
Context {U : Unicode}.
Local Open Scope Z_scope.

(** What lies ahead of the cursor: later starts, no earlier line, and on the
    cursor's line the cursor's line start. *)
Lemma iterations_loop_ahead fuel code : forall l ls p,
  0 <= p <= Z.of_nat (length code) ->
  Forall (fun it => p <= m_start (it_match it) < Z.of_nat (length code) /\
                    l <= it_line it /\
                    (it_line it = l -> it_line_start it = ls))
         (iterations_loop fuel code l ls p).
Proof.
  induction fuel as [|fuel IH]; intros l ls p Hp; [constructor|].
  rewrite iterations_loop_step.
  destruct (MASTER_PATTERN_match code p) as [mo|] eqn:M; [|constructor].
  pose proof (MASTER_PATTERN_match_bounds code p mo Hp M) as B.
  destruct (MASTER_PATTERN_match_Some code p mo Hp M) as (_ & _ & _ & _ & S & _).
  constructor; [simpl; repeat split; lia|].
  destruct (lastgroup mo =? "MISMATCH")%string; [constructor|].
  destruct (lastgroup mo =? "NEWLINE")%string.
  - eapply Forall_impl; [|apply (IH (l + 1) (m_end mo) (m_end mo)); lia].
    simpl. intros it (H1 & H2 & H3). repeat split; lia.
  - eapply Forall_impl; [|apply (IH l ls (m_end mo)); lia].
    simpl. intros it (H1 & H2 & H3). repeat split; auto; lia.
Qed.

Lemma iterations_loop_ordered fuel code : forall l ls p,
  0 <= p <= Z.of_nat (length code) ->
  ForallOrdPairs reads_before (iterations_loop fuel code l ls p).
Proof.
  induction fuel as [|fuel IH]; intros l ls p Hp; [constructor|].
  rewrite iterations_loop_step.
  destruct (MASTER_PATTERN_match code p) as [mo|] eqn:M; [|constructor].
  pose proof (MASTER_PATTERN_match_bounds code p mo Hp M) as B.
  destruct (MASTER_PATTERN_match_Some code p mo Hp M) as (_ & _ & _ & _ & S & _).
  assert (Hp' : 0 <= m_end mo <= Z.of_nat (length code)) by lia.
  destruct (lastgroup mo =? "MISMATCH")%string; [repeat constructor|].
  destruct (lastgroup mo =? "NEWLINE")%string; constructor; auto.
  - eapply Forall_impl; [|apply (iterations_loop_ahead fuel code _ _ _ Hp')].
    unfold reads_before. simpl. intros it (H1 & H2 & H3). lia.
  - eapply Forall_impl; [|apply (iterations_loop_ahead fuel code _ _ _ Hp')].
    unfold reads_before, it_column. simpl. intros it (H1 & H2 & H3).
    destruct (Z.eq_dec (it_line it) l) as [E|E]; [|lia].
    right. rewrite (H3 E). lia.
Qed.

Lemma emit_position code it t :
  In t (emit code it) -> line t = it_line it /\ column t = it_column it.
Proof.
  unfold emit. destruct (it_kind it =? "ID")%string.
  - intros [<-|[]]. auto.
  - destruct (existsb _ _); [intros [<-|[]]; auto|intros []].
Qed.

Lemma emit_short code it :
  (length (emit code it) <= 1)%nat /\
  (length (texts (emit code it)) <= length (it_text code it))%nat.
Proof.
  unfold emit, texts. destruct (it_kind it =? "ID")%string.
  - simpl. rewrite app_nil_r. lia.
  - destruct (existsb _ _); simpl; rewrite ?app_nil_r; lia.
Qed.

Lemma ForallOrdPairs_app (A : Type) (R : A -> A -> Prop) l1 l2 :
  ForallOrdPairs R l1 -> ForallOrdPairs R l2 ->
  (forall x y, In x l1 -> In y l2 -> R x y) ->
  ForallOrdPairs R (l1 ++ l2).
Proof.
  induction 1 as [|a l1 Ha _ IH]; intros H2 H; [exact H2|].
  simpl. constructor.
  - apply Forall_app. split; [exact Ha|].
    rewrite Forall_forall. intros y Hy. apply H; simpl; auto.
  - apply IH; auto. intros x y Hx Hy. apply H; simpl; auto.
Qed.

Lemma emitted_in_order code its :
  ForallOrdPairs reads_before its ->
  ForallOrdPairs before (flat_map (emit code) its).
Proof.
  induction 1 as [|it its Hit _ IH]; [constructor|].
  simpl. apply ForallOrdPairs_app; auto.
  - pose proof (emit_short code it) as (L & _).
    destruct (emit code it) as [|t [|t' l]];
      [constructor|repeat constructor|simpl in L; lia].
  - intros x y Hx Hy. apply in_flat_map in Hy as (it' & I' & Hy).
    rewrite Forall_forall in Hit. specialize (Hit it' I').
    apply emit_position in Hx as (Lx & Cx).
    apply emit_position in Hy as (Ly & Cy).
    unfold before. rewrite Lx, Cx, Ly, Cy. exact Hit.
Qed.

Lemma ForallOrdPairs_prefix (A : Type) (R : A -> A -> Prop) l1 l2 :
  ForallOrdPairs R (l1 ++ l2) -> ForallOrdPairs R l1.
Proof.
  induction l1 as [|a l1 IH]; [constructor|].
  simpl. intros H. inversion H as [|? ? Fa Hl]; subst.
  constructor; auto. apply Forall_app in Fa as (Fa & _). exact Fa.
Qed.

Lemma newlines_app a b : newlines (a ++ b) = newlines a + newlines b.
Proof.
  unfold newlines. rewrite filter_app, length_app. lia.
Qed.

Lemma newlines_nonneg a : 0 <= newlines a.
Proof. unfold newlines. lia. Qed.

Lemma line_start_after_app a : forall ls b,
  line_start_after ls (a ++ b) = line_start_after (line_start_after ls a) b.
Proof. induction a as [|it a IH]; intros ls b; simpl; auto. Qed.

Lemma line_start_after_same b : forall ls,
  newlines b = 0 -> line_start_after ls b = ls.
Proof.
  induction b as [|it b IH]; intros ls H; [reflexivity|].
  rewrite newlines_cons in H. pose proof (newlines_nonneg b) as N.
  simpl. destruct (it_kind it =? "NEWLINE")%string; [lia|].
  apply IH. lia.
Qed.

(** X9: the tokens of a run come in reading order: each token stands on a
    later line than the one before it, or on the same line in a later
    column; EOF, when the run is exhausted, stands after all of them. *)
Theorem tokens_in_reading_order code :
  ForallOrdPairs before (fst (tokenize code)).
Proof.
  destruct (length_fuel code) as (H0 & _).
  pose proof (iterations_loop_ordered (S (length code)) code 1 0 0 H0) as O.
  pose proof (iterations_loop_ahead (S (length code)) code 1 0 0 H0) as A.
  fold (iterations code) in O, A.
  pose proof (tokenize_trace code) as T. cbv zeta in T.
  destruct (snd (tokenize code)) as [|e|]; [| |contradiction].
  - destruct T as (-> & _).
    apply ForallOrdPairs_app;
      [apply emitted_in_order, O|repeat constructor|].
    intros x y Hx [<-|[]]. apply in_flat_map in Hx as (it & Hit & Hx).
    apply emit_position in Hx as (Lx & Cx).
    destruct (in_split _ _ Hit) as (pre & post & E).
    destruct (iterations_loop_cursor _ _ _ _ _ _ _ _ (proj1 (length_fuel code)) E) as (Hl & Hs & _).
    rewrite Forall_forall in A. destruct (A it Hit) as ((_ & Hlt) & _).
    unfold before. cbn [line column]. rewrite Lx, Cx, E.
    rewrite newlines_app, line_start_after_app.
    pose proof (newlines_nonneg (it :: post)) as N.
    destruct (Z.eq_dec (newlines (it :: post)) 0) as [Z0|NZ]; [right|left; lia].
    rewrite (line_start_after_same _ _ Z0).
    unfold it_column. split; lia.
  - destruct T as (pre & it & E & _ & _ & _ & ->).
    apply emitted_in_order. rewrite E in O.
    apply (ForallOrdPairs_prefix _ _ _ _ O).
Qed.

Lemma iterations_loop_length fuel code : forall l ls p,
  0 <= p <= Z.of_nat (length code) ->
  Z.of_nat (length (iterations_loop fuel code l ls p)) <=
  Z.of_nat (length code) - p.
Proof.
  induction fuel as [|fuel IH]; intros l ls p Hp; [simpl; lia|].
  rewrite iterations_loop_step.
  destruct (MASTER_PATTERN_match code p) as [mo|] eqn:M; [|simpl; lia].
  pose proof (MASTER_PATTERN_match_bounds code p mo Hp M) as B.
  cbn [length]. rewrite Nat2Z.inj_succ.
  destruct (lastgroup mo =? "MISMATCH")%string; [simpl; lia|].
  destruct (lastgroup mo =? "NEWLINE")%string.
  - specialize (IH (l + 1) (m_end mo) (m_end mo)). lia.
  - specialize (IH l ls (m_end mo)). lia.
Qed.

Lemma flat_map_emit_length code its :
  (length (flat_map (emit code) its) <= length its)%nat /\
  (length (texts (flat_map (emit code) its)) <=
   length (concat (map (it_text code) its)))%nat.
Proof.
  induction its as [|it its (IH1 & IH2)]; [simpl; auto|].
  pose proof (emit_short code it) as (E1 & E2).
  simpl. rewrite texts_app, !length_app. lia.
Qed.

(** X10: a run is no longer than its input: it goes through at most one
    match per character, yields at most one token per character and EOF,
    and the texts of its tokens together are no longer than the input. *)
Theorem run_no_longer_than_input code :
  (length (iterations code) <= length code)%nat /\
  (length (fst (tokenize code)) <= S (length code))%nat /\
  (length (texts (fst (tokenize code))) <= length code)%nat.
Proof.
  destruct (length_fuel code) as (H0 & _).
  pose proof (iterations_loop_length (S (length code)) code 1 0 0 H0) as Len.
  pose proof (iterations_loop_concat (S (length code)) code 1 0 0 H0) as C.
  cbv zeta in C. destruct C as (_ & C).
  fold (iterations code) in Len, C.
  assert (Lc : (length (concat (map (it_text code) (iterations code)))
                <= length code)%nat).
  { change (skipn (Z.to_nat 0) code) with code in C.
    apply (f_equal (@length char)) in C. rewrite length_app in C. lia. }
  split; [lia|].
  pose proof (tokenize_trace code) as T. cbv zeta in T.
  destruct (snd (tokenize code)) as [|e|]; [| |contradiction].
  - destruct T as (-> & _).
    destruct (flat_map_emit_length code (iterations code)) as (F1 & F2).
    rewrite texts_app, !length_app. simpl. lia.
  - destruct T as (pre & it & E & _ & _ & _ & ->).
    destruct (flat_map_emit_length code pre) as (F1 & F2).
    rewrite E in Len, Lc.
    rewrite map_app, concat_app, length_app in Lc.
    rewrite length_app in Len. simpl in Len. lia.
Qed.

(** X11: an input made only of digits, letters, underscores, blanks, line
    feeds, operator and punctuation characters is scanned without error. *)
Theorem plain_input_is_accepted code :
  Forall (fun c => plain_char c = true) code ->
  snd (tokenize code) = StopIteration.
Proof.
  intros P. pose proof (tokenize_trace code) as T. cbv zeta in T.
  destruct (snd (tokenize code)) as [|e|]; [reflexivity| |contradiction].
  exfalso. destruct T as (pre & it & E & _ & K & _).
  assert (Hit : In it (iterations code)).
  { rewrite E. apply in_or_app. simpl. auto. }
  destruct (iteration_alternation code it Hit) as (c & s & Sk & A).
  rewrite K in A.
  apply (alternation_plain c s _) in A; auto.
  rewrite Forall_forall in P. apply P.
  assert (I : In c (skipn (Z.to_nat (m_start (it_match it))) code))
    by (rewrite Sk; simpl; auto).
  rewrite <- (firstn_skipn (Z.to_nat (m_start (it_match it))) code).
  apply in_or_app. auto.
Qed.

End Order.

(** ** Blank input *)

Section Blank.
Context {U : Unicode}.
Local Open Scope Z_scope.

(** The match at a position whose text is known. *)
Lemma MASTER_PATTERN_match_at code p (c : char) (s : str) name (rest : str) :
  0 <= p <= Z.of_nat (length code) ->
  skipn (Z.to_nat p) code = c :: s ->
  alternation TOKEN_SPECIFICATION (c :: s) = Some (name, rest) ->
  exists e,
    MASTER_PATTERN_match code p =
      Some {| lastgroup := name; m_start := p; m_end := e |} /\
    skipn (Z.to_nat e) code = rest /\
    p < e <= Z.of_nat (length code) /\
    e = p + 1 + Z.of_nat (length s) - Z.of_nat (length rest).
Proof.
  intros Hp Sk A.
  exists (Z.of_nat (length code) - Z.of_nat (length rest)).
  assert (M : MASTER_PATTERN_match code p =
              Some {| lastgroup := name; m_start := p;
                      m_end := Z.of_nat (length code) - Z.of_nat (length rest) |}).
  { unfold MASTER_PATTERN_match. rewrite Sk, A, Z.max_r by lia. reflexivity. }
  split; [exact M|].
  pose proof (MASTER_PATTERN_match_bounds code p _ Hp M) as B.
  destruct (alternation_TOKEN_SPECIFICATION _ _ _ A) as (r & t & _ & _ & _ & Es).
  rewrite Es in Sk.
  destruct (skipn_split code p t rest Hp Sk) as (He & _ & Hr).
  split; [exact Hr|]. split; [exact B|].
  apply (f_equal (@length char)) in Es. rewrite length_app in Es.
  simpl in Es. rewrite He. lia.
Qed.

Lemma whitespace_cases (c : char) :
  whitespace c = true -> c = 10%N \/ blank c = true.
Proof.
  unfold whitespace, blank. cbn [existsb].
  destruct (N.eqb_spec c 10); auto.
Qed.

Lemma blank_not_LF (c : char) : blank c = true -> (c =? 10)%N = false.
Proof.
  intros H. destruct (blank_cases c H) as [->|[->| ->]]; reflexivity.
Qed.

Lemma skip_while_length p (s : str) : (length (skip_while p s) <= length s)%nat.
Proof.
  induction s as [|c t IH]; simpl; auto. destruct (p c); simpl; lia.
Qed.

Lemma skip_while_Forall (P : char -> Prop) p (s : str) :
  Forall P s -> Forall P (skip_while p s).
Proof.
  induction 1 as [|c t Hc Ht IH]; simpl; auto.
  destruct (p c); auto.
Qed.

Lemma line_feeds_cons (c : char) (s : str) :
  line_feeds (c :: s) = (if (c =? 10)%N then 1 else 0) + line_feeds s.
Proof.
  unfold line_feeds. cbn [count_occ].
  destruct (N.eq_dec c 10) as [->|Ne].
  - change ((10 =? 10)%N) with true. cbv iota. rewrite Nat2Z.inj_succ. lia.
  - apply N.eqb_neq in Ne. rewrite Ne. lia.
Qed.

(** A run of blanks holds no line feed and starts no line. *)
Lemma blank_run (s : str) : forall p ls,
  line_feeds s = line_feeds (skip_while blank s) /\
  start_of_last_line p ls s =
  start_of_last_line
    (p + Z.of_nat (length s) - Z.of_nat (length (skip_while blank s))) ls
    (skip_while blank s).
Proof.
  induction s as [|c t IH]; intros p ls.
  - simpl. split; [reflexivity|f_equal; lia].
  - cbn [skip_while]. destruct (blank c) eqn:B.
    + pose proof (blank_not_LF c B) as N.
      destruct (IH (p + 1) ls) as (I1 & I2).
      pose proof (skip_while_length blank t) as L.
      rewrite line_feeds_cons, N. cbn [start_of_last_line]. rewrite N.
      split; [lia|]. rewrite I2. f_equal. simpl length. lia.
    + split; [reflexivity|f_equal; lia].
Qed.

Lemma blank_loop code : forall fuel l ls p,
  0 <= p <= Z.of_nat (length code) ->
  Z.of_nat (length code) - p < Z.of_nat fuel ->
  Forall (fun c => whitespace c = true) (skipn (Z.to_nat p) code) ->
  tokenize_loop fuel code l ls p =
    ([Tok "EOF" [] (l + line_feeds (skipn (Z.to_nat p) code))
          (Z.of_nat (length code) -
           start_of_last_line p ls (skipn (Z.to_nat p) code) + 1)],
     StopIteration).
Proof.
  induction fuel as [|fuel IH]; intros l ls p Hp Hf W; [lia|].
  rewrite tokenize_loop_step.
  destruct (skipn (Z.to_nat p) code) as [|c s] eqn:Sk.
  - assert (E : p = Z.of_nat (length code)).
    { apply skipn_all_iff in Sk. lia. }
    apply (MASTER_PATTERN_match_None code p Hp) in E as M. rewrite M.
    unfold line_feeds. simpl. do 3 f_equal; lia.
  - inversion W as [|? ? Wc Ws]; subst.
    destruct (whitespace_cases c Wc) as [->|B].
    + destruct (MASTER_PATTERN_match_at code p _ _ _ _ Hp Sk (alternation_line_feed s))
        as (e & M & Hr & Hb & He).
      rewrite M. cbv zeta. cbn [lastgroup m_end].
      change (("NEWLINE" =? "MISMATCH")%string) with false.
      change (("NEWLINE" =? "NEWLINE")%string) with true. cbv iota.
      change (emit code _) with (@nil Token). cbn [app].
      rewrite IH by (rewrite ?Hr; auto; lia).
      rewrite Hr, line_feeds_cons. cbn [start_of_last_line].
      change ((10 =? 10)%N) with true. cbv iota.
      assert (e = p + 1) as -> by lia.
      simpl fst. simpl snd. do 3 f_equal; lia.
    + destruct (MASTER_PATTERN_match_at code p _ _ _ _ Hp Sk (alternation_blank c s B))
        as (e & M & Hr & Hb & He).
      rewrite M. cbv zeta. cbn [lastgroup m_end].
      change (("SKIP" =? "MISMATCH")%string) with false.
      change (("SKIP" =? "NEWLINE")%string) with false. cbv iota.
      change (emit code _) with (@nil Token). cbn [app].
      rewrite IH by (rewrite ?Hr; auto using skip_while_Forall; lia).
      rewrite Hr, line_feeds_cons, (blank_not_LF c B).
      cbn [start_of_last_line]. rewrite (blank_not_LF c B).
      destruct (blank_run s (p + 1) ls) as (I1 & I2).
      rewrite I1, I2.
      assert (p + 1 + Z.of_nat (length s) -
              Z.of_nat (length (skip_while blank s)) = e) as -> by lia.
      simpl fst. simpl snd. do 3 f_equal; lia.
Qed.

(** X12: an input of blanks and line feeds only, the empty input among
    them, yields EOF alone, on line 1 plus the number of line feeds, in the
    column after the last character of the last line. *)
Theorem blank_input_yields_EOF_alone code :
  Forall (fun c => whitespace c = true) code ->
  tokenize code =
    ([Tok "EOF" [] (1 + line_feeds code)
          (Z.of_nat (length code) - start_of_last_line 0 0 code + 1)],
     StopIteration).
Proof.
  intros W. destruct (length_fuel code) as (H0 & H1).
  apply (blank_loop code (S (length code)) 1 0 0 H0 H1 W).
Qed.

End Blank.

(** ** A first line that yields nothing *)

Section FirstLine.
Context {U : Unicode}.
Local Open Scope Z_scope.

Lemma skipn_past (pre rest : str) (p : Z) :
  0 <= p ->
  skipn (Z.to_nat (p + Z.of_nat (length pre))) (pre ++ rest) =
  skipn (Z.to_nat p) rest.
Proof.
  intros Hp. rewrite skipn_app.
  rewrite skipn_all2 by lia. simpl. f_equal. lia.
Qed.

Lemma MASTER_PATTERN_match_shift (pre rest : str) p :
  0 <= p ->
  MASTER_PATTERN_match (pre ++ rest) (p + Z.of_nat (length pre)) =
  option_map (shift_match (Z.of_nat (length pre))) (MASTER_PATTERN_match rest p).
Proof.
  intros Hp. unfold MASTER_PATTERN_match. rewrite skipn_past by exact Hp.
  destruct (alternation _ _) as [[name r]|]; [|reflexivity].
  simpl. unfold shift_match. simpl. rewrite length_app. do 2 f_equal; lia.
Qed.

Lemma group_shift (pre rest : str) mo :
  0 <= m_start mo ->
  group (pre ++ rest) (shift_match (Z.of_nat (length pre)) mo) = group rest mo.
Proof.
  intros H. unfold group, slice, shift_match. simpl.
  rewrite skipn_past by exact H. f_equal. lia.
Qed.

Lemma emit_shift (pre rest : str) d l ls mo :
  0 <= m_start mo ->
  emit (pre ++ rest)
       (Iter (l + d) (ls + Z.of_nat (length pre))
             (shift_match (Z.of_nat (length pre)) mo)) =
  map (bump_token d) (emit rest (Iter l ls mo)).
Proof.
  intros H. unfold emit, it_kind, it_text, it_column, it_line.
  cbn [it_match it_line it_line_start]. rewrite group_shift by exact H.
  cbn [lastgroup shift_match m_start].
  destruct (lastgroup mo =? "ID")%string.
  - unfold bump_token. simpl. do 2 f_equal. lia.
  - destruct (existsb _ _); [|reflexivity].
    unfold bump_token. simpl. do 2 f_equal. lia.
Qed.

(** The loop on an input does, behind any text put before it, what it does
    on the input alone, positions apart. *)
Lemma tokenize_loop_shift (pre rest : str) d : forall fuel l ls p,
  0 <= p <= Z.of_nat (length rest) ->
  tokenize_loop fuel (pre ++ rest) (l + d)
                (ls + Z.of_nat (length pre)) (p + Z.of_nat (length pre)) =
  bump d (tokenize_loop fuel rest l ls p).
Proof.
  induction fuel as [|fuel IH]; intros l ls p Hp; [reflexivity|].
  rewrite !tokenize_loop_step, MASTER_PATTERN_match_shift by lia.
  destruct (MASTER_PATTERN_match rest p) as [mo|] eqn:M; cbn [option_map].
  - pose proof (MASTER_PATTERN_match_bounds rest p mo Hp M) as B.
    destruct (MASTER_PATTERN_match_Some rest p mo Hp M) as (_ & _ & _ & _ & S & _).
    assert (S0 : 0 <= m_start mo) by lia.
    cbv zeta. cbn [lastgroup shift_match m_end].
    destruct (lastgroup mo =? "MISMATCH")%string.
    + unfold bump, it_text, it_column. simpl.
      rewrite group_shift by exact S0.
      replace (m_start mo + Z.of_nat (length pre) - (ls + Z.of_nat (length pre)) + 1)
        with (m_start mo - ls + 1) by lia.
      reflexivity.
    + rewrite emit_shift by exact S0.
      destruct (lastgroup mo =? "NEWLINE")%string.
      * replace (l + d + 1) with (l + 1 + d) by lia.
        rewrite IH by lia. unfold bump. simpl. rewrite map_app. reflexivity.
      * rewrite IH by lia. unfold bump. simpl. rewrite map_app. reflexivity.
  - unfold bump. simpl.
    replace (p + Z.of_nat (length pre) - (ls + Z.of_nat (length pre)) + 1)
      with (p - ls + 1) by lia.
    reflexivity.
Qed.

(** One iteration that yields nothing, with fuel to spare. *)
Lemma tokenize_loop_drop code fuel l ls p (c : char) (s : str) name (rest : str) :
  0 <= p <= Z.of_nat (length code) ->
  Z.of_nat (length code) - p < Z.of_nat fuel ->
  skipn (Z.to_nat p) code = c :: s ->
  alternation TOKEN_SPECIFICATION (c :: s) = Some (name, rest) ->
  dropped name = true ->
  let e := p + 1 + Z.of_nat (length s) - Z.of_nat (length rest) in
  p < e <= Z.of_nat (length code) /\
  tokenize_loop fuel code l ls p =
    if (name =? "NEWLINE")%string then tokenize_loop fuel code (l + 1) e e
    else tokenize_loop fuel code l ls e.
Proof.
  intros Hp Hf Sk A D e.
  destruct (MASTER_PATTERN_match_at code p c s name rest Hp Sk A)
    as (e' & M & _ & B & He).
  fold e in He. subst e'. split; [exact B|].
  destruct fuel as [|fuel]; [lia|].
  rewrite tokenize_loop_step, M. cbv zeta. cbn [lastgroup m_end].
  assert (Em : emit code (Iter l ls {| lastgroup := name; m_start := p; m_end := e |})
               = [] /\ (name =? "MISMATCH")%string = false).
  { unfold emit, it_kind, dropped in *. cbn [it_match lastgroup existsb] in *.
    destruct (String.eqb_spec name "NEWLINE") as [->|N1]; [auto|].
    destruct (String.eqb_spec name "SKIP") as [->|N2]; [auto|].
    destruct (String.eqb_spec name "COMMENT") as [->|N3]; [auto|].
    discriminate D. }
  destruct Em as (-> & ->). cbn [app].
  destruct (name =? "NEWLINE")%string;
    rewrite (tokenize_loop_fuel code fuel (S fuel)) by lia;
    destruct (tokenize_loop (S fuel) code _ _ _); reflexivity.
Qed.

Lemma skip_while_self p (c : char) (s : str) :
  p c = false -> skip_while p (c :: s) = c :: s.
Proof. intros H. simpl. rewrite H. reflexivity. Qed.

(** X13: a first line that holds only blanks and, after them, nothing or a
    comment started by two slashes yields no token: the run on an input
    that has such a line and a line feed put before it is the run on the
    input alone, with every line number, that of an error too, one higher
    and every column unchanged. *)
Theorem first_line_without_tokens (ws cm rest : str) :
  Forall (fun c => blank c = true) ws ->
  cm = [] \/
  (exists body, cm = of_string "//" ++ body /\
                Forall (fun c => not_LF c = true) body) ->
  tokenize (ws ++ cm ++ 10%N :: rest) = bump 1 (tokenize rest).
Proof.
  intros Hws Hcm.
  set (code := ws ++ cm ++ 10%N :: rest).
  set (F := S (length code)).
  assert (Lc : Z.of_nat (length code) =
               Z.of_nat (length ws) + Z.of_nat (length cm) + 1 +
               Z.of_nat (length rest)).
  { unfold code. rewrite !length_app. simpl length. lia. }
  assert (Hd : match cm ++ 10%N :: rest with
               | c :: _ => blank c = false
               | [] => True
               end).
  { destruct Hcm as [->|(body & -> & _)]; reflexivity. }
  (* the blanks *)
  assert (S1 : tokenize code =
               tokenize_loop F code 1 0 (Z.of_nat (length ws))).
  { unfold tokenize. fold F. destruct ws as [|c ws']; [reflexivity|].
    inversion Hws as [|? ? Hc Hws']; subst.
    assert (A : alternation TOKEN_SPECIFICATION
                  (c :: ws' ++ cm ++ 10%N :: rest) =
                Some ("SKIP"%string, cm ++ 10%N :: rest)).
    { rewrite (alternation_blank c _ Hc), skip_while_app by exact Hws'.
      destruct (cm ++ 10%N :: rest) as [|x t]; [reflexivity|].
      rewrite (skip_while_self blank x t Hd). reflexivity. }
    destruct (tokenize_loop_drop code F 1 0 0 c _ _ _
                ltac:(lia) ltac:(unfold F; lia) eq_refl A eq_refl) as (_ & E).
    rewrite E. change (("SKIP" =? "NEWLINE")%string) with false. cbv iota.
    f_equal. repeat (progress (rewrite ?length_app; simpl length)). lia. }
  (* the comment *)
  assert (S2 : tokenize_loop F code 1 0 (Z.of_nat (length ws)) =
               tokenize_loop F code 1 0 (Z.of_nat (length (ws ++ cm)))).
  { destruct Hcm as [->|(body & -> & Hb)].
    { rewrite app_nil_r. reflexivity. }
    change (of_string "//" ++ body) with (47%N :: 47%N :: body) in *.
    assert (Sk : skipn (Z.to_nat (Z.of_nat (length ws))) code =
                 47%N :: 47%N :: body ++ 10%N :: rest).
    { unfold code. rewrite Nat2Z.id, skipn_app, skipn_all, Nat.sub_diag.
      reflexivity. }
    assert (A : alternation TOKEN_SPECIFICATION
                  (47%N :: 47%N :: body ++ 10%N :: rest) =
                Some ("COMMENT"%string, 10%N :: rest)).
    { rewrite alternation_line_comment, skip_while_app by exact Hb.
      reflexivity. }
    destruct (tokenize_loop_drop code F 1 0 (Z.of_nat (length ws)) _ _ _ _
                ltac:(lia) ltac:(unfold F; lia) Sk A eq_refl) as (_ & E).
    rewrite E. change (("COMMENT" =? "NEWLINE")%string) with false. cbv iota.
    f_equal. repeat (progress (rewrite ?length_app; simpl length)). lia. }
  (* the line feed *)
  set (pre := (ws ++ cm) ++ [10%N]).
  assert (Ec : code = pre ++ rest).
  { unfold code, pre. rewrite <- !app_assoc. reflexivity. }
  assert (S3 : tokenize_loop F code 1 0 (Z.of_nat (length (ws ++ cm))) =
               tokenize_loop F code (1 + 1) (0 + Z.of_nat (length pre))
                             (0 + Z.of_nat (length pre))).
  { assert (Sk : skipn (Z.to_nat (Z.of_nat (length (ws ++ cm)))) code =
                 10%N :: rest).
    { unfold code. rewrite app_assoc, Nat2Z.id, skipn_app, skipn_all, Nat.sub_diag.
      reflexivity. }
    destruct (tokenize_loop_drop code F 1 0 (Z.of_nat (length (ws ++ cm))) _ _ _ _
                ltac:(rewrite length_app; lia)
                ltac:(unfold F; rewrite length_app; lia)
                Sk (alternation_line_feed rest) eq_refl) as (_ & E).
    rewrite E. change (("NEWLINE" =? "NEWLINE")%string) with true. cbv iota.
    unfold pre. rewrite (length_app (ws ++ cm)). simpl length.
    f_equal; lia. }
  rewrite S1, S2, S3, Ec.
  rewrite tokenize_loop_shift by lia.
  f_equal. apply tokenize_more_fuel.
  unfold F. rewrite Ec, length_app. lia.
Qed.

End FirstLine.

(** ** A token on its own *)

Section Alone.
Context {U : Unicode}.
Local Open Scope Z_scope.

Lemma skip_while_all p (s : str) :
  Forall (fun c => p c = true) s -> skip_while p s = [].
Proof. induction 1 as [|c t Hc _ IH]; simpl; auto. rewrite Hc. exact IH. Qed.

(** The run on a text that one match takes whole. *)
Lemma tokenize_single (v : str) kind :
  alternation TOKEN_SPECIFICATION v = Some (kind, []) ->
  (kind =? "MISMATCH")%string = false ->
  (kind =? "NEWLINE")%string = false ->
  tokenize v =
    (emit v (Iter 1 0 {| lastgroup := kind; m_start := 0;
                         m_end := Z.of_nat (length v) |}) ++
     [Tok "EOF" [] 1 (Z.of_nat (length v) + 1)], StopIteration).
Proof.
  intros A NM NN. destruct v as [|c s]; [discriminate A|].
  assert (H0 : 0 <= 0 <= Z.of_nat (length (c :: s))) by lia.
  destruct (MASTER_PATTERN_match_at (c :: s) 0 c s kind [] H0 eq_refl A)
    as (e & M & _ & B & He).
  assert (E : e = Z.of_nat (length (c :: s))) by (simpl length in *; lia).
  clear He. subst e. unfold tokenize.
  rewrite tokenize_loop_step, M. cbv zeta. cbn [lastgroup m_end].
  rewrite NM, NN.
  change (tokenize_loop (length (c :: s))) with (tokenize_loop (S (length s))).
  rewrite tokenize_loop_step.
  assert (N : MASTER_PATTERN_match (c :: s) (Z.of_nat (length (c :: s))) = None).
  { apply MASTER_PATTERN_match_None; lia. }
  rewrite N. reflexivity.
Qed.

Lemma it_text_whole (v : str) kind l ls :
  it_text v (Iter l ls {| lastgroup := kind; m_start := 0;
                          m_end := Z.of_nat (length v) |}) = v.
Proof.
  unfold it_text, group, slice. simpl.
  rewrite Z.sub_0_r, Nat2Z.id. apply firstn_all.
Qed.

Lemma tokenize_alone (v : str) kind ty :
  alternation TOKEN_SPECIFICATION v = Some (kind, []) ->
  (In kind ["NUMBER"; "STRING"; "OP"; "PUNCT"]%string /\ ty = kind) \/
  (kind = "ID"%string /\
   ty = if in_KEYWORDS v then "KEYWORD"%string else "IDENT"%string) ->
  tokenize v =
    ([Tok ty v 1 1; Tok "EOF" [] 1 (Z.of_nat (length v) + 1)], StopIteration).
Proof.
  intros A K.
  assert (E : (kind =? "MISMATCH")%string = false /\
              (kind =? "NEWLINE")%string = false /\
              emit v (Iter 1 0 {| lastgroup := kind; m_start := 0;
                                  m_end := Z.of_nat (length v) |}) =
              [Tok ty v 1 1]).
  { unfold emit. rewrite it_text_whole. unfold it_kind, it_column. simpl.
    destruct K as [(I & ->)|(-> & ->)]; [|auto].
    simpl in I. destruct I as [<-|[<-|[<-|[<-|[]]]]]; auto. }
  destruct E as (NM & NN & E).
  rewrite (tokenize_single v kind A NM NN), E. reflexivity.
Qed.

(** X14: the text of a token, scanned on its own, gives that token back:
    for every token of a run other than EOF, the run on its text alone
    yields one token of the same kind with the same text, at line 1,
    column 1, then EOF right after it. *)
Theorem token_text_scans_to_itself code :
  Forall (fun t =>
            type t <> "EOF"%string ->
            tokenize (value t) =
              ([Tok (type t) (value t) 1 1;
                Tok "EOF" [] 1 (Z.of_nat (length (value t)) + 1)],
               StopIteration))
         (fst (tokenize code)).
Proof.
  eapply Forall_impl; [|apply tokenize_shapes].
  intros [ty v l c]. unfold token_shape. cbn [type value].
  intros [(-> & H)|[(-> & NK & c0 & w & -> & I & W)|[(-> & i & f & -> & (Ni & Di) & F)|
          [(-> & body & -> & Hb)|[(-> & H)|[(-> & c0 & -> & H)|(-> & _)]]]]]] NE.
  - simpl in H.
    repeat (destruct H as [<-|H]; [reflexivity|]). destruct H.
  - apply (tokenize_alone _ "ID").
    + rewrite (alternation_id_start c0 w I), (skip_while_all word w W). reflexivity.
    + right. split; [reflexivity|].
      destruct (in_KEYWORDS (c0 :: w)) eqn:E; [|reflexivity].
      apply in_KEYWORDS_In in E. contradiction.
  - apply (tokenize_alone _ "NUMBER"); [|left; split; [simpl; tauto|reflexivity]].
    destruct i as [|d i']; [contradiction|].
    inversion Di as [|? ? Hd Di']; subst.
    change ((d :: i') ++ f) with (d :: (i' ++ f)).
    rewrite (alternation_digit d (i' ++ f) Hd). unfold number_rest.
    rewrite (skip_while_app digit i' f Di').
    destruct F as [->|(g & -> & (Ng & Dg))]; [reflexivity|].
    destruct g as [|e g']; [contradiction|].
    inversion Dg as [|? ? He Dg']; subst.
    change (skip_while digit (46%N :: e :: g')) with (46%N :: e :: g').
    cbn [fraction_rest]. change ((46 =? 46)%N) with true. rewrite He.
    cbn [andb]. rewrite (skip_while_all digit g' Dg'). reflexivity.
  - apply (tokenize_alone _ "STRING"); [|left; split; [simpl; tauto|reflexivity]].
    change (34%N :: body ++ [34%N]) with (34%N :: (body ++ [34%N])).
    rewrite alternation_quote, Hb. reflexivity.
  - destruct H as [H|(c0 & -> & H)]; simpl in H.
    + repeat (destruct H as [<-|H]; [reflexivity|]). destruct H.
    + repeat (destruct H as [<-|H]; [reflexivity|]). destruct H.
  - simpl in H.
    repeat (destruct H as [<-|H]; [reflexivity|]). destruct H.
  - contradiction.
Qed.

End Alone.

(** ** Characters beyond ASCII *)

Section Beyond.
Context {U : Unicode}.
Local Open Scope Z_scope.

Lemma existsb_above (c : char) (l : str) :
  (128 <= c)%N -> Forall (fun x => (x < 128)%N) l ->
  existsb (N.eqb c) l = false.
Proof.
  intros H F. induction F as [|x l Hx _ IH]; [reflexivity|].
  simpl. rewrite IH. destruct (N.eqb_spec c x); [lia|reflexivity].
Qed.

Lemma plain_char_above (c : char) :
  (128 <= c)%N -> plain_char c = uni_decimal c.
Proof.
  intros H. rewrite plain_char_split.
  assert (D : digit c = uni_decimal c).
  { unfold digit. destruct (N.ltb_spec c 128); [lia|reflexivity]. }
  assert (I : id_start c = false).
  { unfold id_start, ascii_letter.
    destruct (N.leb_spec 65 c), (N.leb_spec c 90), (N.leb_spec 97 c),
      (N.leb_spec c 122), (N.eqb_spec c 95); simpl; try reflexivity; lia. }
  assert (W : whitespace c = false).
  { unfold whitespace. apply existsb_above; auto.
    repeat constructor. }
  rewrite D, I, W.
  rewrite !existsb_above; auto; [|repeat constructor..].
  destruct (uni_decimal c); reflexivity.
Qed.

(** X15: a character beyond ASCII cannot start an identifier: at the cursor
    it starts a NUMBER when the character database counts it as a decimal
    digit and is an error otherwise.  After the first character of an
    identifier it is read as part of the identifier when the database
    counts it as a word character. *)
Theorem beyond_ascii (c : char) (s : str) :
  (128 <= c)%N ->
  alternation TOKEN_SPECIFICATION (c :: s) =
    (if uni_decimal c then Some ("NUMBER"%string, number_rest s)
     else Some ("MISMATCH"%string, s)) /\
  forall a : char,
    id_start a = true -> uni_alnum c = true ->
    alternation TOKEN_SPECIFICATION (a :: c :: s) =
      Some ("ID"%string, skip_while word s).
Proof.
  intros H. split.
  - pose proof (plain_char_above c H) as P.
    destruct (uni_decimal c) eqn:D.
    + apply alternation_digit. unfold digit.
      destruct (N.ltb_spec c 128); [lia|exact D].
    + apply alternation_stray; [exact P|].
      destruct (N.eqb_spec c 34); [lia|reflexivity].
  - intros a I A. rewrite (alternation_id_start a (c :: s) I).
    cbn [skip_while].
    assert (W : word c = true).
    { unfold word. destruct (N.ltb_spec c 128); [lia|exact A]. }
    rewrite W. reflexivity.
Qed.

End Beyond.

(** ** The further properties at sample inputs *)

Lemma blanks_read_as_one_run_witness :
  blank 32%N = true /\
  alternation (TOKEN_SPECIFICATION (U:=basic_latin)) (32%N :: of_string "  x") =
    Some ("SKIP"%string, skip_while blank (of_string "  x")) /\
  match skip_while blank (of_string "  x") with
  | d :: _ => blank d = false
  | [] => True
  end.
Proof.
  split; [reflexivity|].
  apply (blanks_read_as_one_run (U:=basic_latin) 32%N (of_string "  x")).
  reflexivity.
Defined.

Lemma plain_input_is_accepted_witness :
  Forall (fun c => plain_char (U:=basic_latin) c = true) (of_string "x = y1 + 2;") /\
  snd (tokenize (U:=basic_latin) (of_string "x = y1 + 2;")) = StopIteration.
Proof.
  assert (P : Forall (fun c => plain_char (U:=basic_latin) c = true)
                     (of_string "x = y1 + 2;"))
    by (repeat constructor).
  split; [exact P|].
  exact (plain_input_is_accepted (U:=basic_latin) (of_string "x = y1 + 2;") P).
Defined.

Lemma blank_input_yields_EOF_alone_witness :
  Forall (fun c => whitespace c = true) [32; 10; 9]%N /\
  tokenize (U:=basic_latin) [32; 10; 9]%N =
    ([Tok "EOF" [] (1 + line_feeds [32; 10; 9]%N)
          (Z.of_nat (length [32; 10; 9]%N) -
           start_of_last_line 0 0 [32; 10; 9]%N + 1)%Z],
     StopIteration).
Proof.
  assert (W : Forall (fun c => whitespace c = true) [32; 10; 9]%N)
    by (repeat constructor).
  split; [exact W|].
  exact (blank_input_yields_EOF_alone (U:=basic_latin) [32; 10; 9]%N W).
Defined.

Lemma first_line_without_tokens_witness :
  (Forall (fun c => blank c = true) [32%N] /\
   exists body, of_string "//c" = of_string "//" ++ body /\
                Forall (fun c => not_LF c = true) body) /\
  tokenize (U:=basic_latin) ([32%N] ++ of_string "//c" ++ 10%N :: of_string "x @") =
    bump 1 (tokenize (U:=basic_latin) (of_string "x @")).
Proof.
  assert (W : Forall (fun c => blank c = true) [32%N]) by (repeat constructor).
  assert (C : exists body, of_string "//c" = of_string "//" ++ body /\
                           Forall (fun c => not_LF c = true) body).
  { exists (of_string "c"). split; [reflexivity|repeat constructor]. }
  split; [split; [exact W|exact C]|].
  exact (first_line_without_tokens (U:=basic_latin) [32%N] (of_string "//c")
           (of_string "x @") W (or_intror C)).
Defined.

Lemma beyond_ascii_witness :
  (128 <= 233)%N /\
  alternation (TOKEN_SPECIFICATION (U:=basic_latin)) (233%N :: of_string "t") =
    Some ("MISMATCH"%string, of_string "t").
Proof.
  assert (H : (128 <= 233)%N) by discriminate.
  split; [exact H|].
  exact (proj1 (beyond_ascii (U:=basic_latin) 233%N (of_string "t") H)).
Defined.
